(** * PrismLauncher: icon directory reconciliation, resource catalog tickets
    and the Modrinth pack export pipeline

  A shallow embedding of
  - [IconList] (directory watching and set reconciliation),
  - [ResourceFolderModel] (coarse update task and ticketed parse tasks),
  - [ModrinthPackExportTask] (hashing, remote resolution, manifest, archive),
  with the properties the design document states about them.

  Qt containers are modelled with stdpp: [QSet<QString>] as [gset string],
  [QMap<QString, T>] as [gmap string T], [QList<T>] as [list T]. *)

From stdpp Require Import gmap strings list fin_maps.
From Stdlib Require Import ZArith Ascii.
From Stdlib Require String.

Set Warnings "-register-all,-clear-no-such-hyp".

(** ** QString helpers *)

Module QString.

Definition isEmpty (s : string) : bool := String.eqb s "".

(** [QString::startsWith] *)
Definition startsWith (s pre : string) : bool := String.prefix pre s.

(** [QString::endsWith]: some tail of [s] is [suf]. *)
Fixpoint endsWith (s suf : string) : bool :=
  String.eqb s suf ||
  match s with
  | EmptyString => false
  | String _ r => endsWith r suf
  end.

(** Does the character occur in the string? *)
Fixpoint contains (c : ascii) (s : string) : bool :=
  match s with
  | EmptyString => false
  | String x r => Ascii.eqb x c || contains c r
  end.

(** Split at the last occurrence of [c] (as [lastIndexOf] followed by
    [left] and [mid]); [None] when [c] does not occur. *)
Fixpoint splitLast (c : ascii) (s : string) : option (string * string) :=
  match s with
  | EmptyString => None
  | String x r =>
      match splitLast c r with
      | Some (a, b) => Some (String x a, b)
      | None => if Ascii.eqb x c then Some (EmptyString, r) else None
      end
  end.

End QString.

(** ** IconList: watching the icon directory and reconciling it *)

Module IconList.

(** [enum IconType] of MMCIcon.h, as far as IconList.cpp names it. *)
Inductive IconType := Builtin | FileBased | ToBeDeleted.

#[global] Instance IconType_eq_dec : EqDecision IconType.
Proof. solve_decision. Defined.

Record MMCImage := { filename : string }.

(** An icon entry (MMCIcon.h is not part of the sources): its key, its
    display name and, per icon type, the image of that type when one is
    present, which is what [MMCIcon::has] tells. *)
Record MMCIcon := {
  m_key : string;
  m_name : string;
  m_images : IconType -> option MMCImage
}.

Definition has (it : MMCIcon) (t : IconType) : bool :=
  match m_images it t with Some _ => true | None => false end.

(** [toStringSet]: the scanned file list as a set. *)
Definition toStringSet (l : list string) : gset string := list_to_set l.

(** The loop of [directoryChanged] that builds [currentSet]: the file
    names of the file-based images of the tracked icons. *)
Definition currentSetOf (m_icons : list MMCIcon) : gset string :=
  foldl (fun acc it =>
           match m_images it FileBased with
           | Some img => {[ filename img ]} ∪ acc
           | None => acc
           end) ∅ m_icons.

Record Reconciliation := {
  newSet : gset string;
  currentSet : gset string;
  toRemove : gset string;
  toAdd : gset string
}.

(** The set computations of [directoryChanged]. [dirReady] is the
    outcome of [m_dir.exists() || FS::ensureFolderPathExists(...)]:
    when it is false the function returns before any scan. *)
Definition directoryChanged (dirReady : bool) (m_icons : list MMCIcon)
    (newFileNamesList : list string) : option Reconciliation :=
  if negb dirReady then None
  else
    let newSet := toStringSet newFileNamesList in
    let currentSet := currentSetOf m_icons in
    Some {| newSet := newSet;
            currentSet := currentSet;
            toRemove := currentSet ∖ newSet;
            toAdd := newSet ∖ currentSet |}.

(** *** Watching *)

(** The directory tree below a path as [QDir::entryInfoList(Dirs)] lists
    it level by level; [dexists] is [QDir::exists] of the node. *)
Inductive DirTree := Dir (path : string) (dexists : bool) (entries : list DirTree).

Section Watcher.
(** Whether the operating system accepts a watch on the path
    (it may refuse for lack of resources or permissions). *)
Variable canWatch : string -> bool.

(** [QFileSystemWatcher::addPath]: fails when the path is already
    watched or the system refuses it. *)
Definition addPath (w : gset string) (p : string) : gset string * bool :=
  if bool_decide (p ∈ w) then (w, false)
  else if canWatch p then ({[ p ]} ∪ w, true)
  else (w, false).

(** [IconList::addPathRecursively]. Besides the watcher and the result
    it returns the registrations attempted, in order, each with the
    value [addPath] returned. *)
Fixpoint addPathRecursively (t : DirTree) (w : gset string)
  : gset string * list (string * bool) * bool :=
  match t with
  | Dir path dexists entries =>
      if negb dexists then (w, [], false)
      else
        let '(w1, r) := addPath w path in
        (fix loop (es : list DirTree)
             (acc : gset string * list (string * bool) * bool) :=
           match es with
           | [] => acc
           | e :: es' =>
               let '(wa, lg, watching) := acc in
               let '(wb, lg', sub) := addPathRecursively e wa in
               loop es' (wb, (lg ++ lg')%list, if sub then true else watching)
           end) entries (w1, [(path, r)], r)
  end.

(** The directories [addPathRecursively] visits. *)
Fixpoint visited (t : DirTree) : list string :=
  match t with
  | Dir path dexists entries =>
      if negb dexists then []
      else path :: (fix go (es : list DirTree) :=
                      match es with
                      | [] => []
                      | e :: es' => visited e ++ go es'
                      end) entries
  end.

(** The loop of [addPathRecursively] over the subdirectories, on its own. *)
Definition watchEntries :=
  fix loop (es : list DirTree) (acc : gset string * list (string * bool) * bool) :=
    match es with
    | [] => acc
    | e :: es' =>
        let '(wa, lg, watching) := acc in
        let '(wb, lg', sub) := addPathRecursively e wa in
        loop es' (wb, (lg ++ lg')%list, if sub then true else watching)
    end.

(** What one run guarantees: the paths tried are the directories visited,
    the result is the disjunction of the registrations, the watcher only
    grows, and every visited path the system accepts is watched. *)
Definition runOk (t : DirTree) : Prop :=
  forall w,
    (addPathRecursively t w).1.2.*1 = visited t
    /\ (addPathRecursively t w).2 = existsb snd (addPathRecursively t w).1.2
    /\ w ⊆ (addPathRecursively t w).1.1
    /\ (forall p, p ∈ visited t -> canWatch p = true ->
                  p ∈ (addPathRecursively t w).1.1).

Record Watching := {
  m_watcher : gset string;
  m_isWatching : bool
}.

(** [IconList::startWatching] on the tree found under [m_dir]. *)
Definition startWatching (tree : DirTree) (s : Watching) : Watching :=
  let '(w, _, r) := addPathRecursively tree (m_watcher s) in
  {| m_watcher := w; m_isWatching := r |}.

(** [IconList::stopWatching] *)
Definition stopWatching (s : Watching) : Watching :=
  {| m_watcher := ∅; m_isWatching := false |}.
End Watcher.

(** Induction on a directory tree with the hypothesis for every entry. *)
Fixpoint DirTree_forall_ind (P : DirTree -> Prop)
    (H : forall p e es, Forall P es -> P (Dir p e es)) (t : DirTree) : P t :=
  match t with
  | Dir p e es =>
      H p e es ((fix go (l : list DirTree) : Forall P l :=
                   match l with
                   | [] => @List.Forall_nil _ P
                   | x :: r => @List.Forall_cons _ P x r (DirTree_forall_ind P H x) (go r)
                   end) es)
  end.

(** The statement that the watch succeeds exactly when every path
    registered, for one run of [addPathRecursively]. *)
Definition succeedsIffAllRegistered (canWatch : string -> bool)
    (t : DirTree) (w : gset string) : Prop :=
  (addPathRecursively canWatch t w).2 = true
  <-> (forall p b, (p, b) ∈ (addPathRecursively canWatch t w).1.2 -> b = true).

(** An icon directory with two subdirectories, and a system that accepts
    a watch on one of the subdirectories only. *)
Definition sampleTree : DirTree :=
  Dir "/icons" true [Dir "/icons/flat" true []; Dir "/icons/round" true []].

Definition onlyRound (p : string) : bool := String.eqb p "/icons/round".

End IconList.

(** ** ResourceFolderModel: one coarse update task, ticketed parse tasks *)

Module ResourceFolderModel.

(** Parse state of a resource, as the design document lists it. *)
Inductive ParseState := Unparsed | Parsing (ticket : Z) | Parsed | Failed.

Record Resource := {
  id : string;
  enabled : bool;
  parse_state : ParseState
}.

(** The catalog with the part of the task runner it talks to:
    [running_updates] are the update tasks started and not yet finished,
    [next_task] the next task handle the runner hands out. *)
Record Model := {
  m_resources : list Resource;
  m_resources_index : gmap string nat;
  m_current_update_task : option nat;
  m_active_parse_tasks : gmap Z nat;
  m_next_resolution_ticket : Z;
  running_updates : gset nat;
  next_task : nat
}.

Definition init : Model :=
  {| m_resources := [];
     m_resources_index := ∅;
     m_current_update_task := None;
     m_active_parse_tasks := ∅;
     m_next_resolution_ticket := 0;
     running_updates := ∅;
     next_task := 0 |}.

(** Modelled from the spec: the body of [ResourceFolderModel::update] is not
    part of the sources (only its declaration is). "If a coarse update task is
    already in flight, returns no-op. Otherwise starts a task that performs a
    full directory scan and reconciliation." *)
Definition update (c : Model) : Model * bool :=
  match m_current_update_task c with
  | Some _ => (c, false)
  | None =>
      let t := next_task c in
      ({| m_resources := m_resources c;
          m_resources_index := m_resources_index c;
          m_current_update_task := Some t;
          m_active_parse_tasks := m_active_parse_tasks c;
          m_next_resolution_ticket := m_next_resolution_ticket c;
          running_updates := {[ t ]} ∪ running_updates c;
          next_task := S t |}, true)
  end.

(** The index map rebuilt from the sequence: id to row. *)
Definition reindex (rs : list Resource) : gmap string nat :=
  foldl (fun m ir => <[ id ir.2 := ir.1 ]> m) ∅ (imap (fun i r => (i, r)) rs).

Definition find (c : Model) (rid : string) : option Resource :=
  match m_resources_index c !! rid with
  | Some row => m_resources c !! row
  | None => None
  end.

Definition hasPendingParseTasks (c : Model) : bool :=
  negb (bool_decide (m_active_parse_tasks c = ∅)).

(** The update tasks in flight are the one the catalog points to, if any. *)
Definition inFlightOk (c : Model) : Prop :=
  running_updates c =
  match m_current_update_task c with
  | Some t => {[ t ]}
  | None => ∅
  end.

Section Subclass.
(** Whether the subclass's parse-task factory returns a task for the
    resource ([createParseTask] may return [nullptr]). *)
Variable createParseTask : Resource -> bool.

(** Modelled from the spec: the body of [ResourceFolderModel::resolveResource]
    is not part of the sources. "If the subclass's parse-task factory returns a
    task, mint a ticket, store it in an active-task map keyed by ticket, and
    start it." The resource records the ticket in its parse state. *)
Definition resolveResource (row : nat) (c : Model) : Model :=
  match m_resources c !! row with
  | None => c
  | Some r =>
      if createParseTask r then
        let ticket := m_next_resolution_ticket c in
        {| m_resources :=
             <[ row := {| id := id r; enabled := enabled r;
                          parse_state := Parsing ticket |} ]> (m_resources c);
           m_resources_index := m_resources_index c;
           m_current_update_task := m_current_update_task c;
           m_active_parse_tasks := <[ ticket := next_task c ]> (m_active_parse_tasks c);
           m_next_resolution_ticket := (ticket + 1)%Z;
           running_updates := running_updates c;
           next_task := S (next_task c) |}
      else c
  end.

(** The tickets of the parse tasks of the resources about to be removed. *)
Definition ticketsOf (rs : list Resource) : list Z :=
  omap (fun r => match parse_state r with Parsing t => Some t | _ => None end) rs.

Definition needsParse (r : Resource) : bool :=
  match parse_state r with Parsed => false | _ => true end.

(** Modelled from the spec: the body of [ResourceFolderModel::applyUpdates] is
    not part of the sources. "Removed resources are erased (then index
    rebuild), added resources are constructed and inserted; for every resource
    whose parse state is not yet Parsed, a new parse task is dispatched
    carrying a freshly minted ticket." Removing a resource "only invalidates
    the ticket" of a parse task still running for it. *)
Definition applyUpdates (current_set new_set : gset string) (c : Model) : Model :=
  let gone := filter (fun r => id r ∈ current_set ∖ new_set) (m_resources c) in
  let kept := filter (fun r => id r ∉ current_set ∖ new_set) (m_resources c) in
  let added :=
    (fun i => {| id := i; enabled := true; parse_state := Unparsed |})
      <$> elements (new_set ∖ current_set) in
  let rs := kept ++ added in
  let c1 :=
    {| m_resources := rs;
       m_resources_index := reindex rs;
       m_current_update_task := m_current_update_task c;
       m_active_parse_tasks :=
         foldr (fun t m => delete t m) (m_active_parse_tasks c) (ticketsOf gone);
       m_next_resolution_ticket := m_next_resolution_ticket c;
       running_updates := running_updates c;
       next_task := next_task c |} in
  foldl (fun acc row =>
           match m_resources acc !! row with
           | Some r => if needsParse r then resolveResource row acc else acc
           | None => acc
           end) c1 (seq 0 (length rs)).

(** Modelled from the spec: completion of the update task [t]. The task is
    no longer in flight; on success the scanned set is reconciled, on failure
    the catalog is left as it is. *)
Definition updateFinished (t : nat) (scanned : option (gset string)) (c : Model) : Model :=
  if bool_decide (t ∈ running_updates c) then
    let c1 :=
      {| m_resources := m_resources c;
         m_resources_index := m_resources_index c;
         m_current_update_task :=
           if bool_decide (m_current_update_task c = Some t) then None
           else m_current_update_task c;
         m_active_parse_tasks := m_active_parse_tasks c;
         m_next_resolution_ticket := m_next_resolution_ticket c;
         running_updates := running_updates c ∖ {[ t ]};
         next_task := next_task c |} in
    match scanned with
    | Some new_set =>
        applyUpdates (list_to_set (id <$> m_resources c1)) new_set c1
    | None => c1
    end
  else c.

(** Modelled from the spec: the body of [ResourceFolderModel::onParseSucceeded]
    is not part of the sources. "On completion the callback receives the ticket
    and a resource id. If the ticket is absent from the active-task map the
    callback is discarded"; otherwise the ticket is retired and the resource
    with that id, when the catalog still has it, becomes parsed. *)
Definition onParseSucceeded (ticket : Z) (resource_id : string) (c : Model) : Model :=
  match m_active_parse_tasks c !! ticket with
  | None => c
  | Some _ =>
      let rs :=
        match m_resources_index c !! resource_id with
        | Some row =>
            alter (fun r => {| id := id r; enabled := enabled r; parse_state := Parsed |})
                  row (m_resources c)
        | None => m_resources c
        end in
      {| m_resources := rs;
         m_resources_index := m_resources_index c;
         m_current_update_task := m_current_update_task c;
         m_active_parse_tasks := delete ticket (m_active_parse_tasks c);
         m_next_resolution_ticket := m_next_resolution_ticket c;
         running_updates := running_updates c;
         next_task := next_task c |}
  end.

(** What can happen to a catalog. *)
Inductive Op :=
| CallUpdate
| UpdateTaskFinished (t : nat) (scanned : option (gset string))
| ParseTaskSucceeded (ticket : Z) (resource_id : string).

Definition step (c : Model) (o : Op) : Model :=
  match o with
  | CallUpdate => (update c).1
  | UpdateTaskFinished t scanned => updateFinished t scanned c
  | ParseTaskSucceeded ticket rid => onParseSucceeded ticket rid c
  end.

Definition run (ops : list Op) : Model := foldl step init ops.

End Subclass.

End ResourceFolderModel.

(** ** QFileInfo and QDir on path strings *)

Module QFileInfo.
Import QString.

(** The name after the last separator. *)
Definition fileName (p : string) : string :=
  match splitLast "/" p with
  | Some (_, b) => b
  | None => p
  end.

(** The path up to the last separator: "." when there is none, "/" for a
    file of the root directory. *)
Definition path (p : string) : string :=
  match splitLast "/" p with
  | None => "."
  | Some (a, _) => if isEmpty a then "/" else a
  end.

(** The characters of the file name after its last dot. *)
Definition suffix (p : string) : string :=
  match splitLast "." (fileName p) with
  | Some (_, b) => b
  | None => ""
  end.

(** The file name up to its last dot. *)
Definition completeBaseName (p : string) : string :=
  match splitLast "." (fileName p) with
  | Some (a, _) => a
  | None => fileName p
  end.

(** [QDir(d).filePath(fn)] for a relative [fn]. *)
Definition filePath (d fn : string) : string :=
  if isEmpty fn then d
  else if isEmpty d || endsWith d "/" then d +:+ fn
  else d +:+ "/" +:+ fn.

End QFileInfo.

(** ** QJsonValue *)

Module Json.

Inductive QJsonValue :=
| JUndefined
| JNull
| JBool (b : bool)
| JDouble (n : Z)
| JString (s : string)
| JArray (a : list QJsonValue)
| JObject (o : list (string * QJsonValue)).

(** A [QJsonObject]: its members by key, every key once. *)
Abbreviation QJsonObject := (list (string * QJsonValue)).

Definition toObject (v : QJsonValue) : QJsonObject :=
  match v with JObject o => o | _ => [] end.

Definition toArray (v : QJsonValue) : list QJsonValue :=
  match v with JArray a => a | _ => [] end.

Definition toString (v : QJsonValue) : string :=
  match v with JString s => s | _ => "" end.

(** [toInt]: the number when it fits an [int], 0 otherwise. *)
Definition toInt (v : QJsonValue) : Z :=
  match v with
  | JDouble n => if ((-2147483648 <=? n) && (n <=? 2147483647))%Z then n else 0%Z
  | _ => 0%Z
  end.

(** [QJsonObject::value] *)
Fixpoint value (o : QJsonObject) (key : string) : QJsonValue :=
  match o with
  | [] => JUndefined
  | (k, v) :: r => if String.eqb k key then v else value r key
  end.

(** [QJsonValue::operator[]] and [QJsonDocument::operator[]] *)
Definition at_ (v : QJsonValue) (key : string) : QJsonValue :=
  value (toObject v) key.

(** [obj[key] = v]: replaces the member or adds it. *)
Fixpoint set (key : string) (v : QJsonValue) (o : QJsonObject) : QJsonObject :=
  match o with
  | [] => [(key, v)]
  | (k, x) :: r => if String.eqb k key then (key, v) :: r else (k, x) :: set key v r
  end.

(** [value == QString]: a JSON string with these characters. *)
Definition eqString (v : QJsonValue) (s : string) : bool :=
  match v with JString x => String.eqb x s | _ => false end.

End Json.

(** ** ModrinthPackExportTask: the export pipeline *)

Module ModrinthPackExportTask.
Import QString Json.

Inductive ModSide := ClientSide | ServerSide | UniversalSide.

#[global] Instance ModSide_eq_dec : EqDecision ModSide.
Proof. solve_decision. Defined.

(** A [QUrl] as far as the task reads it: [toEncoded] and [host];
    [isEmpty] is an empty encoding. *)
Record QUrl := { toEncoded : string; host : string }.

(** The remote metadata a resource may carry. *)
Record Metadata := {
  url : QUrl;
  hash : string;
  hash_format : string;
  side : ModSide
}.

(** A tracked resource; [relativePath] is
    [gameRoot.relativeFilePath(fileinfo().absoluteFilePath())]. *)
Record Resource := {
  metadata : option Metadata;
  relativePath : string
}.

(** A resource list of the instance; [dir] is its directory relative to
    the game root. *)
Record ModFolderModel := {
  dir : string;
  allResources : list Resource
}.

Record ResolvedFile := {
  sha1 : string;
  sha512 : string;
  rf_url : string;
  size : Z;
  rf_side : ModSide
}.

Inductive Algorithm := Sha1 | Sha512.

(** Opening and reading a file completely. *)
Inductive FileRead :=
| OpenFailed
| ReadFailed
| Contents (data : string) (fileSize : Z).

(** What the task takes from its surroundings: the allow-list of the
    build configuration, the export filter, the outcome of
    [MMCZip::collectFileListRecursively] (the relative paths of the files that
    pass the filter, or a failure), the resource lists of the instance as they
    are after their update, the file system, [Hashing::hash] on bytes and on a
    file, [Json::requireDocument] (the text of the exception when it throws),
    the side of a [ResolvedFile] built without one ([parseApiResponse] gives
    four of the five members), and the components of the pack profile. *)
Record Env := {
  MODRINTH_MRPACK_HOSTS : list string;
  filter : string -> bool;
  collectFileListRecursively : option (list string);
  resourceLists : list ModFolderModel;
  readFile : string -> FileRead;
  hashData : string -> Algorithm -> string;
  hashFile : string -> Algorithm -> string;
  requireDocument : string -> string + QJsonValue;
  valueInitSide : ModSide;
  getComponent : string -> option string
}.

(** The archive task as [buildZip] configures it. The manifest bytes are
    represented by the JSON document they serialise. *)
Record ExportToZipTask := {
  zt_output : string;
  zt_files : list string;
  zt_destinationPrefix : string;
  zt_followSymlinks : bool;
  zt_utf8Enabled : bool;
  zt_extraFiles : list (string * QJsonValue);
  zt_excludeFiles : list string
}.

Inductive ActiveTask :=
| ApiTask (hashes : list string) (algorithm : string)
| ZipTask (zt : ExportToZipTask).

(** What the task emits, in order. *)
Inductive Signal :=
| Status (text : string)
| Started (t : ActiveTask)
| Failed (reason : string).

Record Task := {
  name : string;
  version : string;
  summary : string;
  optionalFiles : bool;
  output : string;
  files : list string;
  pendingHashes : gmap string string;
  resolvedFiles : gmap string ResolvedFile;
  abortable : bool;
  task : option ActiveTask
}.

Definition FILE_EXTENSIONS : list string := ["jar"; "litemod"; "zip"].

Definition withMaps (t : Task) (ph : gmap string string)
    (rf : gmap string ResolvedFile) : Task :=
  {| name := name t; version := version t; summary := summary t;
     optionalFiles := optionalFiles t; output := output t; files := files t;
     pendingHashes := ph; resolvedFiles := rf;
     abortable := abortable t; task := task t |}.

Definition withTask (t : Task) (a : option ActiveTask) : Task :=
  {| name := name t; version := version t; summary := summary t;
     optionalFiles := optionalFiles t; output := output t; files := files t;
     pendingHashes := pendingHashes t; resolvedFiles := resolvedFiles t;
     abortable := abortable t; task := a |}.

Definition setAbortable (b : bool) (t : Task) : Task :=
  {| name := name t; version := version t; summary := summary t;
     optionalFiles := optionalFiles t; output := output t; files := files t;
     pendingHashes := pendingHashes t; resolvedFiles := resolvedFiles t;
     abortable := b; task := task t |}.

Definition withFiles (t : Task) (fs : list string) : Task :=
  {| name := name t; version := version t; summary := summary t;
     optionalFiles := optionalFiles t; output := output t; files := fs;
     pendingHashes := pendingHashes t; resolvedFiles := resolvedFiles t;
     abortable := abortable t; task := task t |}.

(** One manifest file entry: the body of the loop of [generateIndex]. *)
Definition fileOut (optionalFiles : bool) (key : string) (value : ResolvedFile)
    : QJsonObject :=
  let pathInfo := key in
  let '(path, env) :=
    if optionalFiles && String.eqb (QFileInfo.suffix pathInfo) "disabled" then
      (QFileInfo.filePath (QFileInfo.path pathInfo) (QFileInfo.completeBaseName pathInfo),
       set "server" (JString "optional") (set "client" (JString "optional") []))
    else
      (key,
       set "server" (JString "required") (set "client" (JString "required") [])) in
  let env :=
    if decide (rf_side value = ClientSide)
    then set "server" (JString "unsupported") env
    else env in
  let hashes := set "sha512" (JString (sha512 value)) (set "sha1" (JString (sha1 value)) []) in
  set "fileSize" (JDouble (size value))
    (set "hashes" (JObject hashes)
      (set "downloads" (JArray [JString (rf_url value)])
        (set "path" (JString path)
          (set "env" (JObject env) [])))).

Section WithEnv.
Variable E : Env.

Definition dependency (key uid : string) (deps : QJsonObject) : QJsonObject :=
  match getComponent E uid with
  | Some m_version => set key (JString m_version) deps
  | None => deps
  end.

(** [generateIndex]: the manifest document. *)
Definition generateIndex (t : Task) : QJsonValue :=
  let out := set "formatVersion" (JDouble 1) [] in
  let out := set "game" (JString "minecraft") out in
  let out := set "name" (JString (name t)) out in
  let out := set "versionId" (JString (version t)) out in
  let out := if negb (isEmpty (summary t)) then set "summary" (JString (summary t)) out else out in
  let dependencies :=
    dependency "neoforge" "net.neoforged"
      (dependency "forge" "net.minecraftforge"
        (dependency "fabric-loader" "net.fabricmc.fabric-loader"
          (dependency "quilt-loader" "org.quiltmc.quilt-loader"
            (dependency "minecraft" "net.minecraft" [])))) in
  let out := set "dependencies" (JObject dependencies) out in
  let filesOut :=
    (fun kv => JObject (fileOut (optionalFiles t) kv.1 kv.2))
      <$> map_to_list (resolvedFiles t) in
  JObject (set "files" (JArray filesOut) out).

(** [buildZip] *)
Definition buildZip (t : Task) : Task * list Signal :=
  let zipTask :=
    {| zt_output := output t;
       zt_files := files t;
       zt_destinationPrefix := "overrides/";
       zt_followSymlinks := true;
       zt_utf8Enabled := true;
       zt_extraFiles := [("modrinth.index.json", generateIndex t)];
       zt_excludeFiles := (map_to_list (resolvedFiles t)).*1 |} in
  (withTask t (Some (ZipTask zipTask)),
   [Status "Adding files..."; Started (ZipTask zipTask)]).

(** [makeApiRequest] *)
Definition makeApiRequest (t : Task) : Task * list Signal :=
  if bool_decide (pendingHashes t = ∅) then buildZip t
  else
    let api := ApiTask (map_to_list (pendingHashes t)).*2 "sha512" in
    (withTask t (Some api),
     [Status "Finding versions for hashes..."; Started api]).

(** The record of the response for one staged hash: the version object
    under the hash, and in its files the one with this sha512. *)
Definition findVersionFile (doc : QJsonValue) (hashValue : string) : option QJsonValue :=
  let obj := toObject (at_ doc hashValue) in
  match obj with
  | [] => None
  | _ =>
      let files_array := toArray (value obj "files") in
      List.find (fun file => eqString (at_ (at_ file "hashes") "sha512") hashValue)
                files_array
  end.

(** The body of the loop of [parseApiResponse]. *)
Definition mapFile (doc : QJsonValue) (key hashValue : string)
    (rf : gmap string ResolvedFile) : gmap string ResolvedFile :=
  match findVersionFile doc hashValue with
  | Some fileIter =>
      <[ key := {| sha1 := toString (value (toObject (value (toObject fileIter) "hashes")) "sha1");
                   sha512 := hashValue;
                   rf_url := toString (value (toObject fileIter) "url");
                   size := toInt (value (toObject fileIter) "size");
                   rf_side := valueInitSide E |} ]> rf
  | None => rf
  end.

(** [parseApiResponse] *)
Definition parseApiResponse (response : string) (t : Task) : Task * list Signal :=
  let t := withTask t None in
  match requireDocument E response with
  | inl what => (t, [Failed ("Failed to parse versions response: " +:+ what)])
  | inr doc =>
      let rf := map_fold (mapFile doc) (resolvedFiles t) (pendingHashes t) in
      buildZip (withMaps t ∅ rf)
  end.

(** The body of the inner loop of [collectHashes] over the resources of
    a resource list. *)
Definition resolveFromIndex (resource : Resource)
    (rf : gmap string ResolvedFile) : gmap string ResolvedFile :=
  match metadata resource with
  | None => rf
  | Some md =>
      if isEmpty (toEncoded (url md))
         || negb (bool_decide (host (url md) ∈ MODRINTH_MRPACK_HOSTS E)) then rf
      else if filter E (relativePath resource) then rf
      else
        let sha1_0 := if String.eqb (hash_format md) "sha1" then hash md else "" in
        let sha512_0 :=
          if String.eqb (hash_format md) "sha1" then ""
          else if String.eqb (hash_format md) "sha512" then hash md else "" in
        match readFile E (relativePath resource) with
        | OpenFailed => rf
        | ReadFailed => rf
        | Contents data fileSize =>
            let sha1_1 := if isEmpty sha1_0 then hashData E data Sha1 else sha1_0 in
            let sha512_1 := if isEmpty sha512_0 then hashData E data Sha512 else sha512_0 in
            <[ relativePath resource :=
                 {| sha1 := sha1_1; sha512 := sha512_1;
                    rf_url := toEncoded (url md); size := fileSize;
                    rf_side := side md |} ]> rf
        end
  end.

(** The first loop of [collectHashes]: the prefixes of the resource
    directories and the files resolved from local metadata. *)
Definition resolveModels (rf : gmap string ResolvedFile)
    : list string * gmap string ResolvedFile :=
  foldl (fun acc model =>
           (acc.1 ++ [dir model +:+ "/"],
            foldl (fun r resource => resolveFromIndex resource r) acc.2 (allResources model)))
        ([], rf) (resourceLists E).

(** "require sensible file types" *)
Definition sensible (prefixes : list string) (relative : string) : bool :=
  existsb (fun prefix => startsWith relative prefix) prefixes
  && existsb (fun extension =>
                endsWith relative ("." +:+ extension)
                || endsWith relative ("." +:+ extension +:+ ".disabled"))
             FILE_EXTENSIONS.

(** The body of the second loop of [collectHashes]. *)
Definition enqueue (prefixes : list string) (rf : gmap string ResolvedFile)
    (ph : gmap string string) (relative : string) : gmap string string :=
  if bool_decide (is_Some (rf !! relative)) then ph
  else if sensible prefixes relative
  then <[ relative := hashFile E relative Sha512 ]> ph
  else ph.

(** [collectHashes] *)
Definition collectHashes (t : Task) : Task * list Signal :=
  let '(prefixes, rf) := resolveModels (resolvedFiles t) in
  let ph := foldl (enqueue prefixes rf) (pendingHashes t) (files t) in
  let '(t', sigs) := makeApiRequest (setAbortable true (withMaps t ph rf)) in
  (t', Status "Finding file hashes..." :: sigs).

(** [collectFiles] *)
Definition collectFiles (t : Task) : Task * list Signal :=
  let t := setAbortable false t in
  match collectFileListRecursively E with
  | None => (withFiles t [], [Failed "Could not search for files"])
  | Some fs => collectHashes (withMaps (withFiles t fs) ∅ ∅)
  end.

(** [executeTask] *)
Definition executeTask (t : Task) : Task * list Signal :=
  let '(t', sigs) := collectFiles t in
  (t', Status "Searching for files..." :: sigs).

End WithEnv.

(** Modelled from the spec: [MMCZip::ExportToZipTask] is not part of the
    sources. "A zip-like container with an overrides/ prefix for all plain
    files, the manifest injected at a fixed top-level name, and
    remote-resolved files excluded from the override payload." *)
Inductive Member :=
| ExtraFile (data : QJsonValue)
| FromDisk (relative : string).

Definition archive (zt : ExportToZipTask) : list (string * Member) :=
  ((fun e => (e.1, ExtraFile e.2)) <$> zt_extraFiles zt)
  ++ ((fun relative => (zt_destinationPrefix zt +:+ relative, FromDisk relative))
        <$> List.filter (fun relative => negb (bool_decide (relative ∈ zt_excludeFiles zt)))
                        (zt_files zt)).

(** The statement that, with optional-file handling disabled, the entry of
    a resolved file keeps its path and is required on both sides. *)
Definition keepsSuffixAndRequired (key : string) (value : ResolvedFile) : Prop :=
  let entry := JObject (fileOut false key value) in
  at_ entry "path" = JString key
  /\ at_ (at_ entry "env") "client" = JString "required"
  /\ at_ (at_ entry "env") "server" = JString "required".

(** The statement that a tracked resource with metadata [md] gets a
    resolved file whose hash of the declared algorithm is the declared one and
    whose other hash is computed from the bytes, or no entry at all when its
    file cannot be read. *)
Definition reusesDeclaredHash (E : Env) (resource : Resource) (md : Metadata) : Prop :=
  match readFile E (relativePath resource) with
  | Contents data fileSize =>
      exists entry,
        resolveFromIndex E resource ∅ !! relativePath resource = Some entry
        /\ (hash_format md = "sha1" ->
            sha1 entry = hash md /\ sha512 entry = hashData E data Sha512)
        /\ (hash_format md = "sha512" ->
            sha512 entry = hash md /\ sha1 entry = hashData E data Sha1)
  | OpenFailed | ReadFailed => resolveFromIndex E resource ∅ = ∅
  end.

End ModrinthPackExportTask.

(** ** Sample inputs *)

Module Examples.
Import Json ModrinthPackExportTask.

(** A catalog run: a first update finds [mods/a.jar] and dispatches its
    parse task with ticket 0; a second update finds the file gone. *)
Definition deletedWhileParsing : list ResourceFolderModel.Op :=
  [ResourceFolderModel.CallUpdate;
   ResourceFolderModel.UpdateTaskFinished 0 (Some {[ "mods/a.jar" ]});
   ResourceFolderModel.CallUpdate;
   ResourceFolderModel.UpdateTaskFinished 2 (Some ∅)].

Definition modrinthUrl (file : string) : QUrl :=
  {| toEncoded := "https://cdn.modrinth.com/data/" +:+ file;
     host := "cdn.modrinth.com" |}.

(** A mod whose metadata declares its sha1. *)
Definition sodium : Resource :=
  {| metadata := Some {| url := modrinthUrl "sodium.jar";
                         hash := "2fd4e1c67a2d28fced849ee1bb76e7391b93eb12";
                         hash_format := "sha1";
                         side := ClientSide |};
     relativePath := "mods/sodium.jar" |}.

(** A mod the export filter leaves out. *)
Definition lithium : Resource :=
  {| metadata := Some {| url := modrinthUrl "lithium.jar";
                         hash := "de9f2c7fd25e1b3afad3e85a0bd17d9b100db4b3";
                         hash_format := "sha1";
                         side := UniversalSide |};
     relativePath := "mods/lithium.jar" |}.

(** A mod whose metadata names the algorithm but carries no hash. *)
Definition phosphor : Resource :=
  {| metadata := Some {| url := modrinthUrl "phosphor.jar";
                         hash := "";
                         hash_format := "sha1";
                         side := UniversalSide |};
     relativePath := "mods/phosphor.jar" |}.

Definition sampleEnv : Env :=
  {| MODRINTH_MRPACK_HOSTS :=
       ["cdn.modrinth.com"; "github.com"; "raw.githubusercontent.com"; "gitlab.com"];
     filter := fun p => String.eqb p "mods/lithium.jar";
     collectFileListRecursively :=
       Some ["mods/sodium.jar"; "mods/phosphor.jar"; "mods/custom.jar"; "options.txt"];
     resourceLists :=
       [{| dir := "mods"; allResources := [sodium; lithium] |}];
     readFile := fun _ => Contents "PK" 2;
     hashData := fun _ a =>
       match a with
       | Sha1 => "da39a3ee5e6b4b0d3255bfef95601890afd80709"
       | Sha512 => "cf83e1357eefb8bdf1542850d66d8007d620e4050b5715dc83f4a921d36ce9ce"
       end;
     hashFile := fun p _ => "sha512-of-" +:+ p;
     requireDocument := fun response =>
       if String.eqb response "" then inl "empty document" else inr (JObject []);
     valueInitSide := UniversalSide;
     getComponent := fun uid =>
       if String.eqb uid "net.minecraft" then Some "1.20.1" else None |}.

Definition sampleTask : Task :=
  {| name := "pack"; version := "1.0.0"; summary := "";
     optionalFiles := false; output := "pack.mrpack"; files := [];
     pendingHashes := ∅; resolvedFiles := ∅; abortable := true; task := None |}.

(** A disabled client-side-only mod as a resolved file. *)
Definition clientOnlyFile : ResolvedFile :=
  {| sha1 := "2fd4e1c67a2d28fced849ee1bb76e7391b93eb12";
     sha512 := "07e547d9586f6a73f73fbac0435ed76951218fb7d0c8d788a309d785436bbb64";
     rf_url := "https://cdn.modrinth.com/data/sodium.jar";
     size := 1024;
     rf_side := ClientSide |}.

(** The export task with that file resolved and optional files off. *)
Definition disabledModTask : Task :=
  withMaps sampleTask ∅ {[ "mods/sodium.jar.disabled" := clientOnlyFile ]}.

End Examples.

(** ** IconList: the rows and their index *)

Module IconRows.
Import IconList.

(** [m_icons] with [m_nameIndex], the map from key to row. *)
Record Rows := {
  m_icons : list MMCIcon;
  m_nameIndex : gmap string nat
}.

Definition noRows : Rows := {| m_icons := []; m_nameIndex := ∅ |}.


(** The loop of [IconList::reindex] on a cleared map. *)
Definition indexOf (icons : list MMCIcon) : gmap string nat :=
  foldl (fun m ir => <[ m_key ir.2 := ir.1 ]> m) ∅ (imap (fun i it => (i, it)) icons).

(** [IconList::reindex] *)
Definition reindex (s : Rows) : Rows :=
  {| m_icons := m_icons s; m_nameIndex := indexOf (m_icons s) |}.




(** A default-constructed [MMCIcon] with its key and name set. *)
Definition blank (key name : string) : MMCIcon :=
  {| m_key := key; m_name := name; m_images := fun _ => None |}.

Section Parts.
(** [QIcon(path).isNull()] *)
Variable isNull : string -> bool.
(** [MMCIcon::replace] (MMCIcon.cpp is not part of the sources): the icon
    with the image of the given type taken from a theme key or a file. *)
Variable replace : IconType -> string -> MMCIcon -> MMCIcon.

(** [IconList::addThemeIcon] *)
Definition addThemeIcon (key : string) (s : Rows) : Rows * bool :=
  match m_nameIndex s !! key with
  | Some iter =>
      ({| m_icons := alter (replace Builtin key) iter (m_icons s);
          m_nameIndex := m_nameIndex s |}, true)
  | None =>
      let mmc_icon := replace Builtin key (blank key key) in
      ({| m_icons := m_icons s ++ [mmc_icon];
          m_nameIndex := <[ key := length (m_icons s ++ [mmc_icon]) - 1 ]> (m_nameIndex s) |},
       true)
  end.

(** [IconList::addIcon] *)
Definition addIcon (key name path : string) (type : IconType) (s : Rows) : Rows * bool :=
  if isNull path then (s, false)
  else
    match m_nameIndex s !! key with
    | Some iter =>
        ({| m_icons := alter (replace type path) iter (m_icons s);
            m_nameIndex := m_nameIndex s |}, true)
    | None =>
        let mmc_icon := replace type path (blank key name) in
        ({| m_icons := m_icons s ++ [mmc_icon];
            m_nameIndex := <[ key := length (m_icons s ++ [mmc_icon]) - 1 ]> (m_nameIndex s) |},
         true)
    end.


(** What changes the rows. *)
Inductive RowOp :=
| AddThemeIcon (key : string)
| AddIcon (key name path : string) (type : IconType)
| Reindex.

Definition apply (s : Rows) (o : RowOp) : Rows :=
  match o with
  | AddThemeIcon key => (addThemeIcon key s).1
  | AddIcon key name path type => (addIcon key name path type s).1
  | Reindex => reindex s
  end.

End Parts.

(** The index and the rows agree: an indexed key is the key of the row at
    its position, and every row is indexed at its own position. *)
Definition indexed (s : Rows) : Prop :=
  (forall k i, m_nameIndex s !! k = Some i ->
               exists it, m_icons s !! i = Some it /\ m_key it = k)
  /\ (forall i it, m_icons s !! i = Some it -> m_nameIndex s !! m_key it = Some i).

(** A [replace] that sets the file name of the image of the type. *)
Definition setImage (t : IconType) (src : string) (it : MMCIcon) : MMCIcon :=
  {| m_key := m_key it; m_name := m_name it;
     m_images := fun t' => if decide (t' = t) then Some {| filename := src |}
                           else m_images it t' |}.

End IconRows.

(** ** IconList: the files under the icon directory *)

Module IconFiles.

(** What [QDir::entryInfoList] gives for a directory: files, and
    directories with their own entries. *)
Inductive Entry :=
| File (absoluteFilePath : string)
| Folder (absoluteFilePath : string) (entries : list Entry).

(** The loop over the entries of one directory: directories are pushed
    on the worklist, files on the result. *)
Definition scan (entries : list Entry)
    (acc : list (list Entry) * list string) : list (list Entry) * list string :=
  foldl (fun a fileInfo =>
           match fileInfo with
           | Folder _ sub => (a.1 ++ [sub], a.2)
           | File p => (a.1, a.2 ++ [p])
           end) acc entries.

(** The while loop of [getIconFilePaths]; a directory on the worklist is
    represented by its entries. *)
Fixpoint walk (fuel : nat) (directories : list (list Entry)) (iconFiles : list string)
  : list string :=
  match fuel with
  | 0 => iconFiles
  | S n =>
      match directories with
      | [] => iconFiles
      | first :: rest =>
          let '(directories', iconFiles') := scan first (rest, iconFiles) in
          walk n directories' iconFiles'
      end
  end.

(** The number of directories in a listing, the listed one included. *)
Fixpoint folders (e : Entry) : nat :=
  match e with
  | File _ => 0
  | Folder _ sub => S ((fix go (l : list Entry) := match l with
                                                   | [] => 0
                                                   | x :: r => folders x + go r
                                                   end) sub)
  end.

Definition foldersIn (l : list Entry) : nat := foldr (fun e n => folders e + n) 0 l.

(** [IconList::getIconFilePaths] for the entries found under [m_dir]. *)
Definition getIconFilePaths (root : list Entry) : list string :=
  walk (S (foldersIn root)) [root] [].

(** Every file below a listing, depth first. *)
Fixpoint filesOf (e : Entry) : list string :=
  match e with
  | File p => [p]
  | Folder _ sub => (fix go (l : list Entry) := match l with
                                               | [] => []
                                               | x :: r => filesOf x ++ go r
                                               end) sub
  end.

Definition filesIn (l : list Entry) : list string := concat (filesOf <$> l).

(** Induction on an entry with the hypothesis for every sub-entry. *)
Fixpoint Entry_forall_ind (P : Entry -> Prop)
    (HF : forall p, P (File p))
    (HD : forall p sub, Forall P sub -> P (Folder p sub)) (e : Entry) : P e :=
  match e with
  | File p => HF p
  | Folder p sub =>
      HD p sub ((fix go (l : list Entry) : Forall P l :=
                   match l with
                   | [] => @List.Forall_nil _ P
                   | x :: r => @List.Forall_cons _ P x r (Entry_forall_ind P HF HD x) (go r)
                   end) sub)
  end.

(** The directories and the files a listing holds directly. *)
Definition subfolders (l : list Entry) : list (list Entry) :=
  omap (fun e => match e with Folder _ sub => Some sub | File _ => None end) l.

Definition directFiles (l : list Entry) : list string :=
  omap (fun e => match e with File p => Some p | Folder _ _ => None end) l.

(** One round of the loop per directory on the worklist and below it. *)
Definition weight (q : list (list Entry)) : nat :=
  foldr (fun l n => S (foldersIn l) + n) 0 q.

End IconFiles.

(** ** IconList: dropping and installing icon files *)

Module IconDrop.
Import QString.

(** A URL of the dropped data, as far as [dropMimeData] reads it. *)
Record QUrl := { isLocalFile : bool; toLocalFile : string }.

Record QMimeData := { hasUrls : bool; urls : list QUrl }.

(** [Qt::DropAction] *)
Definition IgnoreAction : Z := 0.
Definition CopyAction : Z := 1.
Definition MoveAction : Z := 2.
Definition LinkAction : Z := 4.

(** [IconList::supportedDropActions] *)
Definition supportedDropActions : Z := CopyAction.

Section Files.
(** [QFileInfo::isReadable], [QFileInfo::isFile] *)
Variable isReadable : string -> bool.
Variable isFile : string -> bool.
(** [IconUtils::isIconSuffix] and [FS::PathCombine] (not part of the
    sources), and the icon directory [getDirectory()]. *)
Variable isIconSuffix : string -> bool.
Variable PathCombine : string -> string -> string.
Variable getDirectory : string.

(** [IconList::installIcon]: the [QFile::copy] it makes, source and
    target, if any. *)
Definition installIcon (file name : string) : list (string * string) :=
  if negb (isReadable file) || negb (isFile file) then []
  else if negb (isIconSuffix (QFileInfo.suffix file)) then []
  else
    let target :=
      PathCombine getDirectory (if isEmpty name then QFileInfo.fileName file else name) in
    [(file, target)].

(** [IconList::installIcons] *)
Definition installIcons (iconFiles : list string) : list (string * string) :=
  flat_map (fun file => installIcon file "") iconFiles.

(** [IconList::dropMimeData]: the result and the copies made. *)
Definition dropMimeData (data : option QMimeData) (action : Z)
  : bool * list (string * string) :=
  if (action =? IgnoreAction)%Z then (true, [])
  else
    match data with
    | None => (false, [])
    | Some d =>
        if (Z.land action supportedDropActions =? 0)%Z then (false, [])
        else if hasUrls d then
          let iconFiles :=
            omap (fun url => if isLocalFile url then Some (toLocalFile url) else None)
                 (urls d) in
          (true, installIcons iconFiles)
        else (false, [])
    end.
End Files.

End IconDrop.

(** ** IconList: the order of the rows *)

Module IconSort.
Import QString IconList.

Section Compare.
(** [QString::localeAwareCompare] and [QDir::separator] *)
Variable localeAwareCompare : string -> string -> Z.
Variable separator : ascii.

(** The comparison [sortIconList] hands to [std::sort]. *)
Definition iconLess (a b : MMCIcon) : bool :=
  let aIsSubdir := contains separator (m_key a) in
  let bIsSubdir := contains separator (m_key b) in
  if negb (Bool.eqb aIsSubdir bIsSubdir) then negb aIsSubdir
  else (localeAwareCompare (m_key a) (m_key b) <? 0)%Z.
End Compare.

(** A comparison of strings by length, for an instance. *)
Definition byLength (a b : string) : Z :=
  (Z.of_nat (String.length a) - Z.of_nat (String.length b))%Z.

End IconSort.

(** ** IconList: what a watch run leaves in the watcher *)

Module IconWatch.
Import IconList.

(** The visited directories the system accepts a watch on. *)
Definition accepted (canWatch : string -> bool) (t : DirTree) : gset string :=
  list_to_set (List.filter canWatch (visited t)).

(** What one run does to the watcher: it adds the accepted directories,
    and it succeeds exactly when one of them was not watched yet. *)
Definition watchExact (canWatch : string -> bool) (t : DirTree) : Prop :=
  forall w,
    (addPathRecursively canWatch t w).1.1 = w ∪ accepted canWatch t
    /\ ((addPathRecursively canWatch t w).2 = true
        <-> exists p, p ∈ visited t /\ canWatch p = true /\ p ∉ w).

End IconWatch.


(** ** ModrinthPackExportTask: aborting, and where a resolved file comes from *)

Module ExportParts.
Import QString Json ModrinthPackExportTask.

(** [ModrinthPackExportTask::abort]: the sub-task the abort is forwarded
    to, if one is active, and the result; [emitAborted] goes with [true]. *)
Definition abort (t : Task) : option ActiveTask * bool :=
  match task t with
  | Some a => (Some a, true)
  | None => (None, false)
  end.

(** The entry [v] under [key] is the one the loop of [collectHashes] writes
    for the resource: the resource has metadata with a non-empty URL of an
    allow-listed host, its path is [key] and passes the filter, its file was
    read, and the entry has that URL, size and side, and for each algorithm
    either the declared hash or the hash of the bytes. *)
Definition resolvedLocally (E : Env) (resource : Resource) (key : string)
    (v : ResolvedFile) : Prop :=
  key = relativePath resource
  /\ exists md data fileSize,
      metadata resource = Some md
      /\ toEncoded (url md) <> ""
      /\ host (url md) ∈ MODRINTH_MRPACK_HOSTS E
      /\ filter E key = false
      /\ readFile E key = Contents data fileSize
      /\ rf_url v = toEncoded (url md) /\ size v = fileSize /\ rf_side v = side md
      /\ (sha1 v = hash md /\ hash_format md = "sha1" \/ sha1 v = hashData E data Sha1)
      /\ (sha512 v = hash md /\ hash_format md = "sha512"
          \/ sha512 v = hashData E data Sha512).

End ExportParts.

(** ** More sample inputs *)

Module Instances.
Import IconList IconRows Json ModrinthPackExportTask Examples.

(** An icon file is null when its path is empty. *)
Definition noIcon (path : string) : bool := String.eqb path "".



Definition grassIcon : MMCIcon := setImage Builtin "grass" (blank "grass" "grass").

Definition treeIcon : MMCIcon :=
  setImage FileBased "/icons/flat/tree.png" (blank "flat/tree" "flat » tree").

(** The answer of the remote index with a version for the staged hash of
    [mods/custom.jar]. *)
Definition resolverResponse : QJsonValue :=
  JObject
    [("sha512-of-mods/custom.jar",
      JObject
        [("files",
          JArray
            [JObject
               [("hashes",
                 JObject [("sha1", JString "3f786850e387550fdab836ed7e6dc881de23001b");
                          ("sha512", JString "sha512-of-mods/custom.jar")]);
                ("url", JString "https://cdn.modrinth.com/data/custom.jar");
                ("size", JDouble 2048)]])])].

Definition resolverEnv : Env :=
  {| MODRINTH_MRPACK_HOSTS := MODRINTH_MRPACK_HOSTS sampleEnv;
     filter := filter sampleEnv;
     collectFileListRecursively := collectFileListRecursively sampleEnv;
     resourceLists := resourceLists sampleEnv;
     readFile := readFile sampleEnv;
     hashData := hashData sampleEnv;
     hashFile := hashFile sampleEnv;
     requireDocument := fun _ => inr resolverResponse;
     valueInitSide := valueInitSide sampleEnv;
     getComponent := getComponent sampleEnv |}.

End Instances.

(** * Properties *)

(** ** QString and QFileInfo *)

Module QStringFacts.
Import QString.

Lemma append_nil_l (b : string) : "" +:+ b = b.
Proof. reflexivity. Qed.

Lemma append_cons (x : ascii) (a b : string) : String x a +:+ b = String x (a +:+ b).
Proof. reflexivity. Qed.

Ltac unfold_append := rewrite ?append_nil_l, ?append_cons in *; simpl in *.

Lemma append_assoc (a b c : string) : (a +:+ b) +:+ c = a +:+ (b +:+ c).
Proof. induction a as [|x a IH]; unfold_append; [done | by f_equal]. Qed.

Lemma endsWith_nil (suf : string) : endsWith "" suf = String.eqb "" suf.
Proof. unfold endsWith. apply orb_false_r. Qed.

Lemma endsWith_cons (x : ascii) (s suf : string) :
  endsWith (String x s) suf = String.eqb (String x s) suf || endsWith s suf.
Proof. reflexivity. Qed.

Lemma endsWith_spec (s suf : string) :
  endsWith s suf = true <-> exists q, s = q +:+ suf.
Proof.
  induction s as [|x s IH].
  - rewrite endsWith_nil, String.eqb_eq. split.
    + intros <-. by exists "".
    + intros [q Hq]. destruct q; unfold_append; [done | discriminate].
  - rewrite endsWith_cons, orb_true_iff, String.eqb_eq, IH. split.
    + intros [<-|[q ->]]; [by exists "" | by exists (String x q)].
    + intros [q Hq]. destruct q as [|y q]; unfold_append; [by left |].
      right. exists q. by inversion Hq.
Qed.

Lemma contains_append (c : ascii) (a b : string) :
  contains c (a +:+ b) = contains c a || contains c b.
Proof. induction a as [|x a IH]; unfold_append; [done |]. by rewrite IH, orb_assoc. Qed.

Lemma splitLast_None (c : ascii) (s : string) :
  splitLast c s = None <-> contains c s = false.
Proof.
  induction s as [|x s IH]; simpl; [done |].
  destruct (splitLast c s) as [[a b]|].
  - split; [done |]. intros H. apply orb_false_iff in H as [_ H].
    by apply IH in H.
  - destruct (Ascii.eqb x c); simpl; [done |]. by rewrite <- IH.
Qed.

Lemma splitLast_Some (c : ascii) (s a b : string) :
  splitLast c s = Some (a, b) -> s = a +:+ String c b /\ contains c b = false.
Proof.
  revert a. induction s as [|x s IH]; intros a; simpl; [done |].
  destruct (splitLast c s) as [[a' b']|] eqn:Hs.
  - intros [= <- <-]. destruct (IH a' eq_refl) as [-> Hb]. done.
  - destruct (Ascii.eqb x c) eqn:Hx; [|done].
    intros [= <- <-]. apply Ascii.eqb_eq in Hx as ->.
    split; [done |]. by apply splitLast_None.
Qed.

Lemma splitLast_last (c : ascii) (a b : string) :
  contains c b = false -> splitLast c (a +:+ String c b) = Some (a, b).
Proof.
  intros Hb. induction a as [|x a IH]; unfold_append.
  - apply splitLast_None in Hb. by rewrite Hb, Ascii.eqb_refl.
  - by rewrite IH.
Qed.

Lemma splitLast_append (c : ascii) (s t : string) :
  contains c t = false ->
  splitLast c (s +:+ t) =
  match splitLast c s with
  | Some (a, b) => Some (a, b +:+ t)
  | None => None
  end.
Proof.
  intros Ht. induction s as [|x s IH]; unfold_append.
  - by apply splitLast_None.
  - rewrite IH. destruct (splitLast c s) as [[a b]|]; [done |].
    by destruct (Ascii.eqb x c).
Qed.

End QStringFacts.

Module QFileInfoFacts.
Import QString QFileInfo QStringFacts.

Lemma fileName_tail (p : string) : exists pre, p = pre +:+ fileName p.
Proof.
  unfold fileName. destruct (splitLast "/" p) as [[a b]|] eqn:Hs.
  - apply splitLast_Some in Hs as [-> _]. exists (a +:+ "/").
    by rewrite append_assoc.
  - by exists "".
Qed.

Lemma fileName_append (q t : string) :
  contains "/" t = false -> fileName (q +:+ t) = fileName q +:+ t.
Proof.
  intros Ht. unfold fileName. rewrite splitLast_append by done.
  by destruct (splitLast "/" q) as [[a b]|].
Qed.

(** The suffix is "disabled" exactly for the paths that end in ".disabled". *)
Lemma suffix_disabled (p : string) :
  String.eqb (suffix p) "disabled" = endsWith p ".disabled".
Proof.
  apply eq_true_iff_eq. rewrite String.eqb_eq, endsWith_spec. unfold suffix. split.
  - destruct (splitLast "." (fileName p)) as [[a b]|] eqn:Hs; [|done].
    intros ->. apply splitLast_Some in Hs as [Hs _].
    destruct (fileName_tail p) as [pre Hp]. exists (pre +:+ a).
    rewrite Hp at 1. rewrite Hs. by rewrite append_assoc.
  - intros [q ->]. rewrite fileName_append by done.
    change (fileName q +:+ ".disabled") with (fileName q +:+ String "." "disabled").
    by rewrite splitLast_last.
Qed.

(** For such a path the complete base name is the file name without
    ".disabled". *)
Lemma completeBaseName_disabled (p : string) :
  endsWith p ".disabled" = true ->
  fileName p = completeBaseName p +:+ ".disabled".
Proof.
  rewrite <- suffix_disabled, String.eqb_eq. unfold suffix, completeBaseName.
  destruct (splitLast "." (fileName p)) as [[a b]|] eqn:Hs; [|done].
  intros ->. by apply splitLast_Some in Hs as [Hs _].
Qed.

(** A disabled file in a directory: the renamed path is the path
    without ".disabled". *)
Lemma filePath_strips_disabled (d f : string) :
  d <> "" -> endsWith d "/" = false -> f <> "" -> contains "/" f = false ->
  filePath (path (d +:+ "/" +:+ f +:+ ".disabled"))
           (completeBaseName (d +:+ "/" +:+ f +:+ ".disabled"))
  = d +:+ "/" +:+ f.
Proof.
  intros Hd Hd' Hf Hf'.
  assert (Hsplit : splitLast "/" (d +:+ "/" +:+ f +:+ ".disabled")
                   = Some (d, f +:+ ".disabled")).
  { change (d +:+ "/" +:+ f +:+ ".disabled") with (d +:+ String "/" (f +:+ ".disabled")).
    apply splitLast_last. rewrite contains_append, Hf'. reflexivity. }
  apply String.eqb_neq in Hd, Hf.
  unfold path, completeBaseName, fileName. rewrite Hsplit.
  change (f +:+ ".disabled") with (f +:+ String "." "disabled").
  rewrite splitLast_last by done.
  unfold filePath, isEmpty. rewrite Hd, Hf, Hd'. simpl. by rewrite Hd.
Qed.

End QFileInfoFacts.


(** ** IconList *)

Module IconListFacts.
Import IconList.

Lemma elem_of_currentSetOf_acc (m_icons : list MMCIcon) (acc : gset string) (x : string) :
  x ∈ foldl (fun acc it =>
               match m_images it FileBased with
               | Some img => {[ filename img ]} ∪ acc
               | None => acc
               end) acc m_icons
  <-> x ∈ acc \/ exists it img, it ∈ m_icons /\ m_images it FileBased = Some img
                              /\ filename img = x.
Proof.
  revert acc. induction m_icons as [|it rest IH]; intros acc; simpl.
  - split; [by left | intros [?|(it & img & Hin & _)]; [done | by apply elem_of_nil in Hin]].
  - rewrite IH. destruct (m_images it FileBased) as [img|] eqn:Him.
    + rewrite elem_of_union, elem_of_singleton. split.
      * intros [[->|?]|(it' & img' & Hin & Hm & Hf)].
        -- right. exists it, img. split; [left | done].
        -- by left.
        -- right. exists it', img'. split; [by right | done].
      * intros [?|(it' & img' & Hin & Hm & Hf)]; [left; by right |].
        apply elem_of_cons in Hin as [->|Hin].
        -- left. left. congruence.
        -- right. by exists it', img'.
    + split.
      * intros [?|(it' & img' & Hin & Hm & Hf)]; [by left |].
        right. exists it', img'. split; [by right | done].
      * intros [?|(it' & img' & Hin & Hm & Hf)]; [by left |].
        apply elem_of_cons in Hin as [->|Hin]; [congruence |].
        right. by exists it', img'.
Qed.

(** The tracked set holds exactly the file names of the file-based icons. *)
Lemma elem_of_currentSetOf (m_icons : list MMCIcon) (x : string) :
  x ∈ currentSetOf m_icons
  <-> exists it, it ∈ m_icons /\ has it FileBased = true
                 /\ (filename <$> m_images it FileBased) = Some x.
Proof.
  unfold currentSetOf. rewrite elem_of_currentSetOf_acc. split.
  - intros [H|(it & img & Hin & Hm & Hf)]; [by apply not_elem_of_empty in H |].
    exists it. unfold has. rewrite Hm. simpl. by rewrite Hf.
  - intros (it & Hin & _ & Hf). right.
    destruct (m_images it FileBased) as [img|] eqn:Hm; [|done].
    exists it, img. simpl in Hf. by inversion Hf.
Qed.

(** C1: in every reconciliation run of [directoryChanged] the two
    differences are [toRemove = current − scanned] and
    [toAdd = scanned − current]; they are disjoint, and adding [toAdd] to the
    tracked set and then removing [toRemove] gives exactly the scanned set.
    The tracked set is the set of file names of the file-based icons. *)
Theorem directoryChanged_reconciles (m_icons : list MMCIcon) (scan : list string) :
  exists r,
    directoryChanged true m_icons scan = Some r
    /\ currentSet r = currentSetOf m_icons
    /\ newSet r = toStringSet scan
    /\ toRemove r = currentSet r ∖ newSet r
    /\ toAdd r = newSet r ∖ currentSet r
    /\ toAdd r ∩ toRemove r = ∅
    /\ (currentSet r ∪ toAdd r) ∖ toRemove r = newSet r
    /\ (forall x, x ∈ (currentSet r ∪ toAdd r) ∖ toRemove r <-> x ∈ scan)
    /\ (forall x, x ∈ currentSet r
                  <-> exists it, it ∈ m_icons /\ has it FileBased = true
                                 /\ (filename <$> m_images it FileBased) = Some x).
Proof.
  eexists. split; [reflexivity |]. simpl.
  assert (Hback : (currentSetOf m_icons ∪ toStringSet scan ∖ currentSetOf m_icons)
                    ∖ (currentSetOf m_icons ∖ toStringSet scan) = toStringSet scan).
  { apply set_eq. intros x.
    rewrite elem_of_difference, elem_of_union, !elem_of_difference.
    destruct (decide (x ∈ currentSetOf m_icons)), (decide (x ∈ toStringSet scan)); tauto. }
  repeat split; try done.
  - apply set_eq. intros x.
    rewrite elem_of_intersection, !elem_of_difference. split; [tauto | set_solver].
  - rewrite Hback. unfold toStringSet. by rewrite elem_of_list_to_set.
  - rewrite Hback. unfold toStringSet. by rewrite elem_of_list_to_set.
  - by apply elem_of_currentSetOf.
  - by apply elem_of_currentSetOf.
Qed.

Section WatchFacts.
Variable canWatch : string -> bool.

Lemma addPathRecursively_unfold (p : string) (e : bool) (es : list DirTree) (w : gset string) :
  addPathRecursively canWatch (Dir p e es) w =
  if negb e then (w, [], false)
  else watchEntries canWatch es ((addPath canWatch w p).1,
                                 [(p, (addPath canWatch w p).2)],
                                 (addPath canWatch w p).2).
Proof. simpl. destruct e; [|done]. simpl. by destruct (addPath canWatch w p). Qed.

Lemma visited_unfold (p : string) (e : bool) (es : list DirTree) :
  visited (Dir p e es) = if negb e then [] else p :: concat (visited <$> es).
Proof.
  simpl. destruct e; [|done]. simpl. f_equal.
  induction es as [|x r IH]; [done |]. simpl. by rewrite IH.
Qed.

Lemma addPath_spec (w : gset string) (p : string) :
  w ⊆ (addPath canWatch w p).1
  /\ (canWatch p = true -> p ∈ (addPath canWatch w p).1)
  /\ ((addPath canWatch w p).2 = true -> canWatch p = true).
Proof.
  unfold addPath. case_bool_decide as Hin; simpl; [done |].
  destruct (canWatch p); simpl; set_solver.
Qed.

Lemma watchEntries_ok (es : list DirTree) :
  Forall (runOk canWatch) es ->
  forall wa lg watching,
    watching = existsb snd lg ->
    (watchEntries canWatch es (wa, lg, watching)).1.2.*1 = lg.*1 ++ concat (visited <$> es)
    /\ (watchEntries canWatch es (wa, lg, watching)).2
       = existsb snd (watchEntries canWatch es (wa, lg, watching)).1.2
    /\ wa ⊆ (watchEntries canWatch es (wa, lg, watching)).1.1
    /\ (forall p, p ∈ concat (visited <$> es) -> canWatch p = true ->
                  p ∈ (watchEntries canWatch es (wa, lg, watching)).1.1).
Proof.
  induction 1 as [|e es He Hes IH]; intros wa lg watching Hw.
  - simpl. rewrite app_nil_r. repeat split; try done.
    intros p Hp. by apply elem_of_nil in Hp.
  - simpl. specialize (He wa).
    destruct (addPathRecursively canWatch e wa) as [[wb lge] sub].
    simpl in He. destruct He as (Hv & Hr & Hsub & Hacc).
    destruct (IH wb (lg ++ lge) (if sub then true else watching))
      as (IH1 & IH2 & IH3 & IH4).
    { rewrite existsb_app, <- Hw, <- Hr. by destruct sub, watching. }
    repeat split; try done.
    + rewrite IH1, fmap_app, Hv. by rewrite (assoc_L (++)).
    + set_solver.
    + intros p Hp Hc. apply elem_of_app in Hp as [Hp|Hp]; [|by apply IH4].
      apply IH3. by apply Hacc.
Qed.

Lemma addPathRecursively_runOk (t : DirTree) : runOk canWatch t.
Proof.
  induction t as [p e es IH] using DirTree_forall_ind.
  intros w. rewrite addPathRecursively_unfold, visited_unfold.
  destruct e; simpl.
  - destruct (addPath_spec w p) as (Hs & Ha & _).
    destruct (watchEntries_ok es IH (addPath canWatch w p).1
                [(p, (addPath canWatch w p).2)] (addPath canWatch w p).2)
      as (H1 & H2 & H3 & H4); [simpl; by rewrite orb_false_r |].
    repeat split; try done.
    + set_solver.
    + intros q Hq Hc. apply elem_of_cons in Hq as [->|Hq]; [|by apply H4].
      apply H3. by apply Ha.
  - repeat split; try done. intros q Hq. by apply elem_of_nil in Hq.
Qed.

(** C2, as the code has it: [addPathRecursively] tries the root and every
    subdirectory it visits whatever the outcome of the other registrations,
    and every visited path the system accepts ends up watched; the overall
    result, which [startWatching] stores in [m_isWatching], is success if and
    only if at least one path registered. *)
Theorem addPathRecursively_any_registered (t : DirTree) (w : gset string) :
  (addPathRecursively canWatch t w).1.2.*1 = visited t
  /\ (forall p, p ∈ visited t -> canWatch p = true ->
                p ∈ (addPathRecursively canWatch t w).1.1)
  /\ ((addPathRecursively canWatch t w).2 = true
      <-> exists p, (p, true) ∈ (addPathRecursively canWatch t w).1.2)
  /\ m_isWatching (startWatching canWatch t {| m_watcher := w; m_isWatching := false |})
     = (addPathRecursively canWatch t w).2.
Proof.
  destruct (addPathRecursively_runOk t w) as (Hv & Hr & _ & Hacc).
  repeat split; try done.
  - rewrite Hr. intros Hex. apply existsb_exists in Hex as ([p b] & Hin & Hb).
    simpl in Hb. subst b. exists p. by apply list_elem_of_In.
  - rewrite Hr. intros [p Hin]. apply existsb_exists. exists (p, true).
    split; [by apply list_elem_of_In | done].
  - unfold startWatching. simpl.
    by destruct (addPathRecursively canWatch t w) as [[? ?] ?].
Qed.

End WatchFacts.

(** C2, as stated, fails: with a root and one subdirectory refused and the
    other subdirectory accepted, the watch reports success although two
    paths did not register. *)
Lemma succeedsIffAllRegistered_fails :
  ~ succeedsIffAllRegistered onlyRound sampleTree ∅.
Proof.
  unfold succeedsIffAllRegistered. intros [H _].
  assert (Hr : (addPathRecursively onlyRound sampleTree ∅).2 = true)
    by (vm_compute; reflexivity).
  assert (Hlog : (addPathRecursively onlyRound sampleTree ∅).1.2
                 = [("/icons", false); ("/icons/flat", false); ("/icons/round", true)])
    by (vm_compute; reflexivity).
  specialize (H Hr "/icons" false). rewrite Hlog in H.
  discriminate H. apply list_elem_of_here.
Qed.

End IconListFacts.

(** ** ResourceFolderModel *)

Module ResourceFolderModelFacts.
Import ResourceFolderModel.

Section CatalogFacts.
Variable createParseTask : Resource -> bool.

Lemma resolveResource_update_task (row : nat) (c : Model) :
  m_current_update_task (resolveResource createParseTask row c) = m_current_update_task c
  /\ running_updates (resolveResource createParseTask row c) = running_updates c.
Proof.
  unfold resolveResource. destruct (m_resources c !! row) as [r|]; [|done].
  by destruct (createParseTask r).
Qed.

Lemma dispatch_update_task (rows : list nat) (c : Model) :
  let c' := foldl (fun acc row =>
                     match m_resources acc !! row with
                     | Some r => if needsParse r
                                 then resolveResource createParseTask row acc else acc
                     | None => acc
                     end) c rows in
  m_current_update_task c' = m_current_update_task c
  /\ running_updates c' = running_updates c.
Proof.
  revert c. induction rows as [|row rows IH]; intros c; simpl; [done |].
  match goal with |- context [foldl _ ?x rows] => specialize (IH x) end.
  simpl in IH. destruct IH as [-> ->].
  destruct (m_resources c !! row) as [r|]; [|done].
  destruct (needsParse r); [|done]. apply resolveResource_update_task.
Qed.

Lemma applyUpdates_update_task (current_set new_set : gset string) (c : Model) :
  m_current_update_task (applyUpdates createParseTask current_set new_set c)
  = m_current_update_task c
  /\ running_updates (applyUpdates createParseTask current_set new_set c)
     = running_updates c.
Proof.
  unfold applyUpdates.
  match goal with |- context [foldl ?f ?x ?rows] =>
    pose proof (dispatch_update_task rows x) as H end.
  simpl in H. exact H.
Qed.

Lemma update_inFlightOk (c : Model) : inFlightOk c -> inFlightOk (update c).1.
Proof.
  unfold inFlightOk, update.
  destruct (m_current_update_task c) as [t|] eqn:Hcur; simpl.
  - by rewrite Hcur.
  - intros ->. set_solver.
Qed.

Lemma updateFinished_inFlightOk (t : nat) (scanned : option (gset string)) (c : Model) :
  inFlightOk c -> inFlightOk (updateFinished createParseTask t scanned c).
Proof.
  unfold inFlightOk, updateFinished. intros Hc.
  case_bool_decide as Hin; [|done].
  assert (Hcur : m_current_update_task c = Some t).
  { destruct (m_current_update_task c) as [t'|].
    - rewrite Hc in Hin. apply elem_of_singleton in Hin. by subst.
    - rewrite Hc in Hin. by apply not_elem_of_empty in Hin. }
  destruct scanned as [new_set|].
  - match goal with |- context [applyUpdates _ ?a ?b ?x] =>
      destruct (applyUpdates_update_task a b x) as [-> ->] end.
    simpl. rewrite bool_decide_eq_true_2 by done. rewrite Hc, Hcur. set_solver.
  - simpl. rewrite bool_decide_eq_true_2 by done. rewrite Hc, Hcur. set_solver.
Qed.

Lemma onParseSucceeded_inFlightOk (ticket : Z) (rid : string) (c : Model) :
  inFlightOk c -> inFlightOk (onParseSucceeded ticket rid c).
Proof.
  unfold inFlightOk, onParseSucceeded.
  by destruct (m_active_parse_tasks c !! ticket).
Qed.

Lemma run_inFlightOk (ops : list Op) : inFlightOk (run createParseTask ops).
Proof.
  unfold run. induction ops as [|o ops IH] using rev_ind; [done |].
  rewrite foldl_app. simpl. destruct o; simpl.
  - by apply update_inFlightOk.
  - by apply updateFinished_inFlightOk.
  - by apply onParseSucceeded_inFlightOk.
Qed.

(** C3: whatever happened to the catalog before, at most one update task is
    in flight (also after a further call of [update]); [update] returns false
    exactly when an update task is running, and then it changes nothing, so
    that no second task is started. *)
Theorem update_single_flight (ops : list Op) :
  let c := run createParseTask ops in
  size (running_updates c) <= 1
  /\ size (running_updates (update c).1) <= 1
  /\ ((update c).2 = false <-> is_Some (m_current_update_task c))
  /\ (is_Some (m_current_update_task c) ->
      update c = (c, false) /\ running_updates (update c).1 = running_updates c).
Proof.
  intros c.
  assert (Hsize : forall c', inFlightOk c' -> size (running_updates c') <= 1).
  { intros c' Hc'. rewrite Hc'. destruct (m_current_update_task c').
    - by rewrite size_singleton.
    - by rewrite size_empty; lia. }
  pose proof (run_inFlightOk ops) as Hc. fold c in Hc.
  repeat split.
  - by apply Hsize.
  - apply Hsize. by apply update_inFlightOk.
  - unfold update. destruct (m_current_update_task c); simpl; [by eauto | done].
  - unfold update. destruct (m_current_update_task c); simpl; [done |].
    intros [? ?]. done.
  - destruct H as [t Ht]. unfold update. by rewrite Ht.
  - destruct H as [t Ht]. unfold update. by rewrite Ht.
Qed.

(** A parse completion of any ticket keeps the rows of the catalog: it
    neither inserts nor removes a resource. *)
Lemma onParseSucceeded_ids (ticket : Z) (rid : string) (c : Model) :
  id <$> m_resources (onParseSucceeded ticket rid c) = id <$> m_resources c.
Proof.
  unfold onParseSucceeded. destruct (m_active_parse_tasks c !! ticket); [|done].
  simpl. destruct (m_resources_index c !! rid) as [row|]; [|done].
  apply list_eq. intros i. rewrite !list_lookup_fmap.
  destruct (decide (row = i)) as [->|Hne].
  - rewrite list_lookup_alter_eq. by destruct (m_resources c !! i).
  - by rewrite list_lookup_alter_ne.
Qed.

(** C4: a parse completion whose ticket is not in the active-task map is
    discarded: the catalog stays as it is, no resource is changed, and a
    resource the catalog no longer has is not brought back. *)
Theorem stale_completion_discarded (c : Model) (ticket : Z) (rid : string) :
  m_active_parse_tasks c !! ticket = None ->
  onParseSucceeded ticket rid c = c
  /\ m_resources (onParseSucceeded ticket rid c) = m_resources c
  /\ (find c rid = None -> find (onParseSucceeded ticket rid c) rid = None)
  /\ (rid ∉ id <$> m_resources c ->
      rid ∉ id <$> m_resources (onParseSucceeded ticket rid c)).
Proof.
  intros Hstale.
  assert (Heq : onParseSucceeded ticket rid c = c)
    by (unfold onParseSucceeded; by rewrite Hstale).
  rewrite Heq. repeat split; done.
Qed.

End CatalogFacts.

(** The scenario of a file deleted between dispatch and completion. *)
Lemma stale_completion_discarded_witness :
  let c := run (fun _ => true) Examples.deletedWhileParsing in
  m_active_parse_tasks c !! 0%Z = None
  /\ onParseSucceeded 0 "mods/a.jar" c = c
  /\ find (onParseSucceeded 0 "mods/a.jar" c)
       "mods/a.jar" = None.
Proof.
  intros c.
  assert (Hstale : m_active_parse_tasks c !! 0%Z = None)
    by (vm_compute; reflexivity).
  destruct (stale_completion_discarded c 0 "mods/a.jar" Hstale)
    as (Heq & _ & Hfind & _).
  split; [exact Hstale |]. split; [exact Heq |].
  apply Hfind. vm_compute. reflexivity.
Defined.

End ResourceFolderModelFacts.

(** ** ModrinthPackExportTask *)

Module ExportFacts.
Import QString QFileInfo Json ModrinthPackExportTask Examples QStringFacts QFileInfoFacts.

Lemma value_set_eq (key : string) (v : QJsonValue) (o : QJsonObject) :
  value (set key v o) key = v.
Proof.
  induction o as [|[k x] o IH]; simpl.
  - by rewrite String.eqb_refl.
  - destruct (String.eqb k key) eqn:Hk; simpl.
    + by rewrite String.eqb_refl.
    + by rewrite Hk.
Qed.

(** The files array of the manifest. *)
Lemma generateIndex_files (E : Env) (t : Task) :
  toArray (at_ (generateIndex E t) "files")
  = (fun kv => JObject (fileOut (optionalFiles t) kv.1 kv.2))
      <$> map_to_list (resolvedFiles t).
Proof. unfold generateIndex, at_. simpl toObject. by rewrite value_set_eq. Qed.

Lemma generateIndex_entries (E : Env) (t : Task) (entry : QJsonValue) :
  entry ∈ toArray (at_ (generateIndex E t) "files")
  <-> exists key value, resolvedFiles t !! key = Some value
                        /\ entry = JObject (fileOut (optionalFiles t) key value).
Proof.
  rewrite generateIndex_files, list_elem_of_fmap. split.
  - intros ([key value] & -> & Hin). apply elem_of_map_to_list in Hin. eauto.
  - intros (key & value & Hin & ->). exists (key, value).
    split; [done |]. by apply elem_of_map_to_list.
Qed.

(** The environment block and the path of one entry. *)
Lemma fileOut_env_path (optional : bool) (key : string) (value : ResolvedFile) :
  let entry := JObject (fileOut optional key value) in
  let renamed := optional && endsWith key ".disabled" in
  at_ (at_ entry "env") "client"
    = JString (if renamed then "optional" else "required")
  /\ at_ (at_ entry "env") "server"
    = JString (if decide (rf_side value = ClientSide) then "unsupported"
               else if renamed then "optional" else "required")
  /\ at_ entry "path"
    = JString (if renamed
               then filePath (path key) (completeBaseName key)
               else key).
Proof.
  unfold fileOut. rewrite suffix_disabled.
  destruct (optional && endsWith key ".disabled"); simpl;
    destruct (decide (rf_side value = ClientSide)); done.
Qed.

(** C8: the files array of the manifest has one entry per resolved file,
    and in every entry: when optional-file handling is enabled and the path ends
    in ".disabled", the path is rebuilt from the directory and the file name
    without ".disabled" (for a file in a directory this is the path without
    ".disabled"), and client and server are "optional"; otherwise the
    path is kept and both are "required"; in addition the server is
    "unsupported" for a client-side-only file, and the client of a
    server-side-only file is never "unsupported". *)
Theorem generateIndex_env (E : Env) (t : Task) :
  (forall entry,
      entry ∈ toArray (at_ (generateIndex E t) "files")
      <-> exists key value, resolvedFiles t !! key = Some value
                            /\ entry = JObject (fileOut (optionalFiles t) key value))
  /\ forall key value,
      let entry := JObject (fileOut (optionalFiles t) key value) in
      let renamed := optionalFiles t && endsWith key ".disabled" in
      at_ (at_ entry "env") "client"
        = JString (if renamed then "optional" else "required")
      /\ at_ (at_ entry "env") "server"
        = JString (if decide (rf_side value = ClientSide) then "unsupported"
                   else if renamed then "optional" else "required")
      /\ at_ entry "path"
        = JString (if renamed
                   then filePath (path key) (completeBaseName key)
                   else key)
      /\ (renamed = true -> fileName key = completeBaseName key +:+ ".disabled")
      /\ (forall d f,
            optionalFiles t = true -> key = d +:+ "/" +:+ f +:+ ".disabled" ->
            d <> "" -> endsWith d "/" = false -> f <> "" -> contains "/" f = false ->
            at_ entry "path" = JString (d +:+ "/" +:+ f))
      /\ (rf_side value = ServerSide ->
          at_ (at_ entry "env") "client" <> JString "unsupported").
Proof.
  split; [apply generateIndex_entries |].
  intros key value entry renamed.
  destruct (fileOut_env_path (optionalFiles t) key value) as (Hc & Hs & Hp).
  fold entry renamed in Hc, Hs, Hp.
  repeat split; try done.
  - intros Hr. apply completeBaseName_disabled.
    unfold renamed in Hr. by apply andb_true_iff in Hr as [_ Hr].
  - intros d f Hopt Hkey Hd Hd' Hf Hf'. rewrite Hp.
    assert (Hr : renamed = true).
    { unfold renamed. rewrite Hopt, Hkey. apply endsWith_spec.
      exists (d +:+ "/" +:+ f). by rewrite !append_assoc. }
    rewrite Hr, Hkey. by rewrite filePath_strips_disabled.
  - intros _. rewrite Hc. by destruct renamed.
Qed.


(** C10, as stated, fails for a disabled client-side-only file: its
    server environment is "unsupported", not "required". *)
Lemma keepsSuffixAndRequired_fails :
  optionalFiles disabledModTask = false
  /\ endsWith "mods/sodium.jar.disabled" ".disabled" = true
  /\ toArray (at_ (generateIndex sampleEnv disabledModTask) "files")
     = [JObject (fileOut false "mods/sodium.jar.disabled" clientOnlyFile)]
  /\ at_ (at_ (JObject (fileOut false "mods/sodium.jar.disabled" clientOnlyFile)) "env")
         "server" = JString "unsupported"
  /\ ~ keepsSuffixAndRequired "mods/sodium.jar.disabled" clientOnlyFile.
Proof.
  split; [reflexivity |]. split; [reflexivity |].
  split; [vm_compute; reflexivity |]. split; [reflexivity |].
  intros (_ & _ & Hs). discriminate Hs.
Qed.

(** C10, as the code has it: with optional-file handling disabled every
    manifest entry keeps the path of its resolved file, ".disabled" included,
    its client is "required", and its server is "required" unless the file is
    client-side-only, in which case it is "unsupported"; no entry is
    "optional". *)
Theorem generateIndex_not_optional (E : Env) (t : Task) :
  optionalFiles t = false ->
  (forall key value,
      resolvedFiles t !! key = Some value ->
      exists entry,
        entry ∈ toArray (at_ (generateIndex E t) "files")
        /\ entry = JObject (fileOut false key value)
        /\ at_ entry "path" = JString key
        /\ at_ (at_ entry "env") "client" = JString "required"
        /\ at_ (at_ entry "env") "server"
           = JString (if decide (rf_side value = ClientSide)
                      then "unsupported" else "required"))
  /\ (forall entry,
        entry ∈ toArray (at_ (generateIndex E t) "files") ->
        exists key value,
          resolvedFiles t !! key = Some value
          /\ at_ entry "path" = JString key
          /\ at_ (at_ entry "env") "client" = JString "required"
          /\ at_ (at_ entry "env") "server"
             = JString (if decide (rf_side value = ClientSide)
                        then "unsupported" else "required")).
Proof.
  intros Hopt. split.
  - intros key value Hk. exists (JObject (fileOut false key value)).
    destruct (fileOut_env_path false key value) as (Hc & Hs & Hp).
    simpl in Hc, Hs, Hp. rewrite Hc, Hs, Hp.
    split; [|done]. apply generateIndex_entries. exists key, value.
    by rewrite Hopt.
  - intros entry Hin.
    apply generateIndex_entries in Hin as (key & value & Hk & ->).
    exists key, value. split; [done |]. rewrite Hopt.
    destruct (fileOut_env_path false key value) as (Hc & Hs & Hp).
    simpl in Hc, Hs, Hp. by rewrite Hc, Hs, Hp.
Qed.

Lemma elem_of_keys (m : gmap string ResolvedFile) (p : string) :
  p ∈ (map_to_list m).*1 <-> is_Some (m !! p).
Proof.
  rewrite list_elem_of_fmap. split.
  - intros ([k v] & -> & Hin). apply elem_of_map_to_list in Hin. by exists v.
  - intros [v Hv]. exists (p, v). split; [done |]. by apply elem_of_map_to_list.
Qed.

Lemma archive_members (zt : ExportToZipTask) (name : string) (m : Member) :
  (name, m) ∈ archive zt
  <-> (exists data, (name, data) ∈ zt_extraFiles zt /\ m = ExtraFile data)
      \/ (exists p, p ∈ zt_files zt /\ (p ∉ zt_excludeFiles zt)
                    /\ name = zt_destinationPrefix zt +:+ p /\ m = FromDisk p).
Proof.
  unfold archive. rewrite elem_of_app, !list_elem_of_fmap. split.
  - intros [([n d] & Heq & Hin)|(p & Heq & Hin)].
    + left. exists d. simpl in Heq. inversion Heq; subst. done.
    + right. exists p. apply list_elem_of_In, filter_In in Hin as [Hin Hex].
      apply negb_true_iff, bool_decide_eq_false in Hex.
      inversion Heq; subst. repeat split; try done. by apply list_elem_of_In.
  - intros [(d & Hin & ->)|(p & Hin & Hex & -> & ->)].
    + left. by exists (name, d).
    + right. exists p. split; [done |].
      apply list_elem_of_In, filter_In. split; [by apply list_elem_of_In |].
      by apply negb_true_iff, bool_decide_eq_false.
Qed.

(** C9: [buildZip] starts the archive task over the full collected file
    list with the prefix "overrides/", with the generated manifest as the extra
    file "modrinth.index.json", and excluding exactly the keys of the
    resolved-file table; the archive then holds the manifest and, under
    "overrides/", every collected file that is not resolved. *)
Theorem buildZip_archive (E : Env) (t : Task) :
  exists zt,
    buildZip E t = (withTask t (Some (ZipTask zt)),
                    [Status "Adding files..."; Started (ZipTask zt)])
    /\ zt_files zt = files t
    /\ zt_destinationPrefix zt = "overrides/"
    /\ zt_extraFiles zt = [("modrinth.index.json", generateIndex E t)]
    /\ (forall p, p ∈ zt_excludeFiles zt <-> is_Some (resolvedFiles t !! p))
    /\ (forall name m,
          (name, m) ∈ archive zt
          <-> (name = "modrinth.index.json" /\ m = ExtraFile (generateIndex E t))
              \/ (exists p, p ∈ files t /\ resolvedFiles t !! p = None
                            /\ name = "overrides/" +:+ p /\ m = FromDisk p)).
Proof.
  eexists. split; [reflexivity |]. simpl. repeat split; try done.
  - by apply elem_of_keys.
  - by apply elem_of_keys.
  - rewrite archive_members. simpl.
    intros [(d & Hin & ->)|(p & Hin & Hex & -> & ->)].
    + left. apply list_elem_of_singleton in Hin. by inversion Hin.
    + right. exists p. rewrite elem_of_keys in Hex.
      repeat split; try done. by apply eq_None_not_Some.
  - rewrite archive_members. simpl.
    intros [[-> ->]|(p & Hin & Hnone & -> & ->)].
    + left. eexists. split; [apply list_elem_of_here | done].
    + right. exists p. rewrite elem_of_keys. repeat split; try done.
      by apply eq_None_not_Some.
Qed.


(** *** Staging and the remote request *)

Lemma enqueue_fold_lookup (E : Env) (prefixes : list string)
    (rf : gmap string ResolvedFile) (fs : list string) (ph : gmap string string)
    (p : string) :
  is_Some (foldl (enqueue E prefixes rf) ph fs !! p)
  <-> is_Some (ph !! p)
      \/ (p ∈ fs /\ rf !! p = None /\ sensible prefixes p = true).
Proof.
  revert ph. induction fs as [|f fs IH]; intros ph; simpl.
  - split; [by left | intros [?|[Hin _]]; [done | by apply elem_of_nil in Hin]].
  - rewrite IH. unfold enqueue. case_bool_decide as Hres.
    + split.
      * intros [?|(Hin & ? & ?)]; [by left | right]. split; [by right | done].
      * intros [?|(Hin & Hn & ?)]; [by left |].
        apply elem_of_cons in Hin as [->|Hin]; [|by right].
        rewrite Hn in Hres. by destruct Hres.
    + apply eq_None_not_Some in Hres.
      destruct (sensible prefixes f) eqn:Hsens.
      * destruct (decide (f = p)) as [->|Hne].
        -- rewrite lookup_insert_eq. split; [|by eauto].
           intros _. right. split; [by left | done].
        -- rewrite lookup_insert_ne by done. split.
           ++ intros [?|(Hin & ? & ?)]; [by left | right]. split; [by right | done].
           ++ intros [?|(Hin & ? & ?)]; [by left |].
              apply elem_of_cons in Hin as [->|Hin]; [done | by right].
      * split.
        -- intros [?|(Hin & ? & ?)]; [by left | right]. split; [by right | done].
        -- intros [?|(Hin & ? & Hs)]; [by left |].
           apply elem_of_cons in Hin as [->|Hin]; [congruence | by right].
Qed.

Lemma collectHashes_unfold (E : Env) (t : Task) :
  collectHashes E t =
  let pr := resolveModels E (resolvedFiles t) in
  let ph := foldl (enqueue E pr.1 pr.2) (pendingHashes t) (files t) in
  let r := makeApiRequest E (setAbortable true (withMaps t ph pr.2)) in
  (r.1, Status "Finding file hashes..." :: r.2).
Proof.
  unfold collectHashes. destruct (resolveModels E (resolvedFiles t)) as [prefixes rf].
  simpl. by destruct (makeApiRequest E _).
Qed.

Lemma makeApiRequest_state (E : Env) (t : Task) :
  files (makeApiRequest E t).1 = files t
  /\ pendingHashes (makeApiRequest E t).1 = pendingHashes t
  /\ resolvedFiles (makeApiRequest E t).1 = resolvedFiles t
  /\ optionalFiles (makeApiRequest E t).1 = optionalFiles t.
Proof. unfold makeApiRequest. by case_bool_decide. Qed.

(** The task after a run of [executeTask] whose file listing succeeded. *)
Lemma executeTask_state (E : Env) (t : Task) (fs : list string) :
  collectFileListRecursively E = Some fs ->
  let pr := resolveModels E ∅ in
  files (executeTask E t).1 = fs
  /\ pendingHashes (executeTask E t).1 = foldl (enqueue E pr.1 pr.2) ∅ fs
  /\ resolvedFiles (executeTask E t).1 = pr.2
  /\ (executeTask E t).2
     = Status "Searching for files..." :: Status "Finding file hashes..."
       :: (makeApiRequest E (setAbortable true
             (withMaps (withMaps (withFiles (setAbortable false t) fs) ∅ ∅)
                       (foldl (enqueue E pr.1 pr.2) ∅ fs) pr.2))).2.
Proof.
  intros Hfs pr. unfold executeTask, collectFiles. rewrite Hfs.
  rewrite collectHashes_unfold. simpl. fold pr.
  match goal with |- context [makeApiRequest E ?x] =>
    destruct (makeApiRequest_state E x) as (Hf & Hp & Hr & _) end.
  by rewrite Hf, Hp, Hr.
Qed.

Lemma apiRequest_signalled (E : Env) (t : Task) :
  (exists hashes algorithm, Started (ApiTask hashes algorithm) ∈ (makeApiRequest E t).2)
  <-> pendingHashes t <> ∅.
Proof.
  unfold makeApiRequest. case_bool_decide as Hempty; simpl.
  - split; [|done]. intros (h & a & Hin).
    apply elem_of_cons in Hin as [?|Hin]; [done |].
    apply elem_of_cons in Hin as [?|Hin]; [done |]. by apply elem_of_nil in Hin.
  - split; [done |]. intros _. do 2 eexists. apply list_elem_of_further, list_elem_of_here.
Qed.

Lemma zipTask_signalled (E : Env) (t : Task) :
  (exists zt, Started (ZipTask zt) ∈ (makeApiRequest E t).2) <-> pendingHashes t = ∅.
Proof.
  unfold makeApiRequest. case_bool_decide as Hempty; simpl.
  - split; [done |]. intros _. eexists. apply list_elem_of_further, list_elem_of_here.
  - split; [|done]. intros (zt & Hin).
    apply elem_of_cons in Hin as [?|Hin]; [done |].
    apply elem_of_cons in Hin as [?|Hin]; [done |]. by apply elem_of_nil in Hin.
Qed.

(** C5: with an empty pending-hash map [makeApiRequest] is [buildZip] and
    no request is issued; a request is issued if and only if the map is not
    empty, the archive task is started at once if and only if it is empty; and
    over a whole run a request is issued if and only if some collected file was
    staged (not resolved from local metadata and of a sensible type). *)
Theorem makeApiRequest_iff_staged (E : Env) (t : Task) :
  (pendingHashes t = ∅ -> makeApiRequest E t = buildZip E t)
  /\ ((exists hashes algorithm,
         Started (ApiTask hashes algorithm) ∈ (makeApiRequest E t).2)
      <-> pendingHashes t <> ∅)
  /\ ((exists zt, Started (ZipTask zt) ∈ (makeApiRequest E t).2)
      <-> pendingHashes t = ∅)
  /\ (forall fs,
        collectFileListRecursively E = Some fs ->
        (exists hashes algorithm,
           Started (ApiTask hashes algorithm) ∈ (executeTask E t).2)
        <-> (exists p, p ∈ fs /\ (resolveModels E ∅).2 !! p = None
                       /\ sensible (resolveModels E ∅).1 p = true)).
Proof.
  split; [|split; [apply apiRequest_signalled | split; [apply zipTask_signalled |]]].
  - intros Hempty. unfold makeApiRequest. by rewrite bool_decide_eq_true_2.
  - intros fs Hfs. destruct (executeTask_state E t fs Hfs) as (_ & _ & _ & ->).
    match goal with |- context [makeApiRequest E ?x] =>
      pose proof (apiRequest_signalled E x) as Hreq end.
    simpl pendingHashes in Hreq.
    transitivity (foldl (enqueue E (resolveModels E ∅).1 (resolveModels E ∅).2) ∅ fs
                  <> (∅ : gmap string string)).
    + rewrite <- Hreq. split.
      * intros (h & a & Hin). exists h, a.
        apply elem_of_cons in Hin as [?|Hin]; [done |].
        by apply elem_of_cons in Hin as [?|Hin].
      * intros (h & a & Hin). exists h, a. by do 2 apply list_elem_of_further.
    + split.
      * intros Hne. apply map_choose in Hne as (p & h & Hp).
        exists p. assert (Hs : is_Some (foldl (enqueue E (resolveModels E ∅).1
                                               (resolveModels E ∅).2) ∅ fs !! p))
          by eauto.
        apply enqueue_fold_lookup in Hs as [Hs|Hs]; [|done].
        rewrite lookup_empty in Hs. by destruct Hs.
      * intros (p & Hp) Hempty.
        assert (Hs : is_Some (foldl (enqueue E (resolveModels E ∅).1
                                      (resolveModels E ∅).2) ∅ fs !! p))
          by (apply enqueue_fold_lookup; by right).
        rewrite Hempty, lookup_empty in Hs. by destruct Hs.
Qed.


(** *** The response of the remote index *)

(** Paths without a record in the response, staged or not, keep what the
    resolved-file table had for them. *)
Lemma mapFile_fold_unmatched (E : Env) (doc : QJsonValue)
    (rf : gmap string ResolvedFile) (ph : gmap string string) (p : string) :
  (forall h, ph !! p = Some h -> findVersionFile doc h = None) ->
  map_fold (mapFile E doc) rf ph !! p = rf !! p.
Proof.
  revert ph. apply (map_fold_weak_ind
    (fun r m => (forall h, m !! p = Some h -> findVersionFile doc h = None)
                -> r !! p = rf !! p)).
  - done.
  - intros i x m r Hi IH Hun. unfold mapFile.
    destruct (decide (i = p)) as [->|Hne].
    + rewrite (Hun x) by apply lookup_insert_eq.
      apply IH. intros h Hh. congruence.
    + assert (Hr : r !! p = rf !! p).
      { apply IH. intros h Hh. apply Hun. by rewrite lookup_insert_ne. }
      destruct (findVersionFile doc x); [by rewrite lookup_insert_ne | done].
Qed.

Lemma parseApiResponse_unfold (E : Env) (response : string) (doc : QJsonValue) (t : Task) :
  requireDocument E response = inr doc ->
  parseApiResponse E response t
  = buildZip E (withMaps (withTask t None) ∅
                  (map_fold (mapFile E doc) (resolvedFiles t) (pendingHashes t))).
Proof. intros Hdoc. unfold parseApiResponse. by rewrite Hdoc. Qed.

(** C6: after a run that listed the files, when the response parses, the
    export goes on to the archive task, with the manifest, and does not fail; a staged path whose
    hash has no record in the response gets no resolved-file entry, is not
    excluded, and is in the archive under "overrides/"; with no match at all
    the resolved-file table is what it was. *)
Theorem unmatched_stay_overrides (E : Env) (t0 : Task) (fs : list string)
    (response : string) (doc : QJsonValue) :
  collectFileListRecursively E = Some fs ->
  requireDocument E response = inr doc ->
  let t := (executeTask E t0).1 in
  let r := parseApiResponse E response t in
  exists zt,
    r.2 = [Status "Adding files..."; Started (ZipTask zt)]
    /\ task r.1 = Some (ZipTask zt)
    /\ (forall reason, Failed reason ∉ r.2)
    /\ ("modrinth.index.json", ExtraFile (generateIndex E r.1)) ∈ archive zt
    /\ (forall p h,
          pendingHashes t !! p = Some h ->
          findVersionFile doc h = None ->
          resolvedFiles r.1 !! p = None
          /\ (p ∉ zt_excludeFiles zt)
          /\ ("overrides/" +:+ p, FromDisk p) ∈ archive zt)
    /\ ((forall p h, pendingHashes t !! p = Some h -> findVersionFile doc h = None) ->
        resolvedFiles r.1 = resolvedFiles t).
Proof.
  intros Hfs Hdoc t r.
  destruct (executeTask_state E t0 fs Hfs) as (Hfiles & Hpend & Hres & _).
  fold t in Hfiles, Hpend, Hres.
  unfold r. rewrite (parseApiResponse_unfold E response doc t Hdoc).
  unfold buildZip. eexists. simpl.
  split; [reflexivity |]. split; [reflexivity |]. split; [|split; [|split]].
  - intros reason Hin.
    apply elem_of_cons in Hin as [?|Hin]; [done |].
    apply elem_of_cons in Hin as [?|Hin]; [done |]. by apply elem_of_nil in Hin.
  - apply archive_members. left. eexists. split; [apply list_elem_of_here | done].
  - intros p h Hp Hun.
    assert (Hstaged : is_Some (pendingHashes t !! p)) by eauto.
    rewrite Hpend in Hstaged.
    apply enqueue_fold_lookup in Hstaged as [Hs|(Hin & Hnone & _)];
      [rewrite lookup_empty in Hs; by destruct Hs |].
    assert (Hkeep : map_fold (mapFile E doc) (resolvedFiles t) (pendingHashes t) !! p = None).
    { rewrite mapFile_fold_unmatched; [by rewrite Hres |].
      intros h' Hh'. congruence. }
    assert (Hex : p ∉ (map_to_list (map_fold (mapFile E doc) (resolvedFiles t)
                                      (pendingHashes t))).*1).
    { rewrite elem_of_keys, Hkeep. by intros [? ?]. }
    split; [done |]. split; [done |].
    apply archive_members. right. exists p. simpl. by rewrite Hfiles.
  - intros Hall. apply map_eq. intros p.
    apply mapFile_fold_unmatched. intros h Hh. by apply (Hall p).
Qed.

(** *** Hashes from local metadata *)

Lemma collectHashes_never_fails (E : Env) (t : Task) (reason : string) :
  Failed reason ∉ (collectHashes E t).2.
Proof.
  rewrite collectHashes_unfold. simpl. unfold makeApiRequest.
  case_bool_decide; simpl; intros Hin;
    repeat (apply elem_of_cons in Hin as [?|Hin]; [done |]);
    by apply elem_of_nil in Hin.
Qed.

(** C7, as the code has it: for a tracked resource with metadata whose URL
    is not empty and whose host is on the allow-list, and whose path the export
    filter does not exclude: when its file is read, the resolved file takes the
    declared hash for the declared algorithm (sha1 or sha512) if that hash is
    not empty, and every other hash is computed from the bytes; when the file
    cannot be opened or read, the table is left as it is, the loop goes on
    with the other resources as if this one were not there, and the hashing
    stage does not fail. *)
Theorem resolveFromIndex_reuses_declared (E : Env) (resource : Resource)
    (md : Metadata) (rf : gmap string ResolvedFile) :
  metadata resource = Some md ->
  toEncoded (url md) <> "" ->
  host (url md) ∈ MODRINTH_MRPACK_HOSTS E ->
  filter E (relativePath resource) = false ->
  match readFile E (relativePath resource) with
  | Contents data fileSize =>
      exists entry,
        resolveFromIndex E resource rf = <[ relativePath resource := entry ]> rf
        /\ rf_url entry = toEncoded (url md)
        /\ size entry = fileSize
        /\ rf_side entry = side md
        /\ (hash_format md = "sha1" -> hash md <> "" ->
            sha1 entry = hash md /\ sha512 entry = hashData E data Sha512)
        /\ (hash_format md = "sha512" -> hash md <> "" ->
            sha512 entry = hash md /\ sha1 entry = hashData E data Sha1)
        /\ (hash_format md <> "sha1" \/ hash md = "" -> sha1 entry = hashData E data Sha1)
        /\ (hash_format md <> "sha512" \/ hash md = "" ->
            sha512 entry = hashData E data Sha512)
  | OpenFailed | ReadFailed =>
      resolveFromIndex E resource rf = rf
      /\ (forall before after,
            foldl (fun r x => resolveFromIndex E x r) rf (before ++ resource :: after)
            = foldl (fun r x => resolveFromIndex E x r) rf (before ++ after))
      /\ (forall t reason, Failed reason ∉ (collectHashes E t).2)
  end.
Proof.
  intros Hmd Hurl Hhost Hfilter.
  assert (Hskip : forall rf', readFile E (relativePath resource) = OpenFailed
                              \/ readFile E (relativePath resource) = ReadFailed ->
                              resolveFromIndex E resource rf' = rf').
  { intros rf' Hread. unfold resolveFromIndex. rewrite Hmd.
    destruct (_ || _); [done |]. rewrite Hfilter. by destruct Hread as [-> | ->]. }
  assert (Hu : isEmpty (toEncoded (url md)) = false) by by apply String.eqb_neq.
  destruct (readFile E (relativePath resource)) as [| |data fileSize] eqn:Hread.
  - split; [apply Hskip; by left |].
    split; [|intros t reason; apply collectHashes_never_fails].
    intros before after. rewrite !foldl_app. simpl. rewrite Hskip; [done | by left].
  - split; [apply Hskip; by right |].
    split; [|intros t reason; apply collectHashes_never_fails].
    intros before after. rewrite !foldl_app. simpl. rewrite Hskip; [done | by right].
  - unfold resolveFromIndex.
    rewrite Hmd, Hfilter, Hu, (bool_decide_eq_true_2 _ Hhost), Hread. simpl.
    eexists. split; [reflexivity |]. simpl. unfold isEmpty.
    split; [done |]. split; [done |]. split; [done |].
    split; [|split; [|split]].
    + intros Hf He. apply String.eqb_neq in He. rewrite Hf. simpl. by rewrite He.
    + intros Hf He. apply String.eqb_neq in He. rewrite Hf. simpl. by rewrite He.
    + intros [Hf|He].
      * apply String.eqb_neq in Hf. by rewrite Hf.
      * rewrite He. by destruct (String.eqb (hash_format md) "sha1").
    + intros [Hf|He].
      * apply String.eqb_neq in Hf. rewrite Hf.
        by destruct (String.eqb (hash_format md) "sha1").
      * rewrite He.
        by destruct (String.eqb (hash_format md) "sha1"),
                    (String.eqb (hash_format md) "sha512").
Qed.


(** C7, as stated, fails: a mod with metadata of an allow-listed host that
    the export filter excludes gets no resolved file although its file is
    readable, and a mod whose declared hash is empty gets a recomputed one. *)
Lemma reusesDeclaredHash_fails :
  (forall r md, r = lithium \/ r = phosphor -> metadata r = Some md ->
                host (url md) ∈ MODRINTH_MRPACK_HOSTS sampleEnv)
  /\ (forall md, metadata lithium = Some md -> ~ reusesDeclaredHash sampleEnv lithium md)
  /\ (forall md, metadata phosphor = Some md -> ~ reusesDeclaredHash sampleEnv phosphor md).
Proof.
  split; [|split].
  - intros r md [-> | ->] [= <-]; apply list_elem_of_here.
  - intros md [= <-]. unfold reusesDeclaredHash. simpl.
    intros (entry & Hentry & _). vm_compute in Hentry. discriminate Hentry.
  - intros md [= <-]. unfold reusesDeclaredHash. simpl.
    intros (entry & Hentry & Hsha1 & _).
    destruct (Hsha1 eq_refl) as [Hsha1' _].
    vm_compute in Hentry. injection Hentry as <-. discriminate Hsha1'.
Qed.

(** *** Instances *)

Lemma unmatched_stay_overrides_witness :
  collectFileListRecursively sampleEnv
  = Some ["mods/sodium.jar"; "mods/phosphor.jar"; "mods/custom.jar"; "options.txt"]
  /\ requireDocument sampleEnv "{}" = inr (JObject [])
  /\ pendingHashes (executeTask sampleEnv sampleTask).1 !! "mods/custom.jar"
     = Some "sha512-of-mods/custom.jar"
  /\ exists zt,
      (parseApiResponse sampleEnv "{}" (executeTask sampleEnv sampleTask).1).2
      = [Status "Adding files..."; Started (ZipTask zt)]
      /\ ("overrides/mods/custom.jar", FromDisk "mods/custom.jar") ∈ archive zt.
Proof.
  split; [reflexivity |]. split; [reflexivity |].
  assert (Hstaged : pendingHashes (executeTask sampleEnv sampleTask).1 !! "mods/custom.jar"
                    = Some "sha512-of-mods/custom.jar") by (vm_compute; reflexivity).
  split; [exact Hstaged |].
  destruct (unmatched_stay_overrides sampleEnv sampleTask _ "{}" (JObject [])
              eq_refl eq_refl) as (zt & Hsig & _ & _ & _ & Hun & _).
  exists zt. split; [exact Hsig |].
  exact (proj2 (proj2 (Hun "mods/custom.jar" _ Hstaged eq_refl))).
Defined.

Lemma resolveFromIndex_reuses_declared_witness :
  exists entry,
    resolveFromIndex sampleEnv sodium ∅ = <[ "mods/sodium.jar" := entry ]> ∅
    /\ sha1 entry = "2fd4e1c67a2d28fced849ee1bb76e7391b93eb12"
    /\ sha512 entry = hashData sampleEnv "PK" Sha512.
Proof.
  assert (Hhost : "cdn.modrinth.com" ∈ MODRINTH_MRPACK_HOSTS sampleEnv)
    by apply list_elem_of_here.
  assert (Hurl : "https://cdn.modrinth.com/data/sodium.jar" <> "") by discriminate.
  pose proof (resolveFromIndex_reuses_declared sampleEnv sodium _ ∅
                eq_refl Hurl Hhost eq_refl) as H.
  simpl in H. destruct H as (entry & Heq & _ & _ & _ & Hsha1 & _).
  exists entry. split; [exact Heq |].
  assert (Hne : "2fd4e1c67a2d28fced849ee1bb76e7391b93eb12" <> "") by discriminate.
  exact (Hsha1 eq_refl Hne).
Defined.

Lemma generateIndex_not_optional_witness :
  optionalFiles disabledModTask = false
  /\ exists entry,
      entry ∈ toArray (at_ (generateIndex sampleEnv disabledModTask) "files")
      /\ at_ entry "path" = JString "mods/sodium.jar.disabled"
      /\ at_ (at_ entry "env") "client" = JString "required"
      /\ at_ (at_ entry "env") "server" = JString "unsupported".
Proof.
  split; [reflexivity |].
  assert (Hk : resolvedFiles disabledModTask !! "mods/sodium.jar.disabled"
               = Some clientOnlyFile) by (vm_compute; reflexivity).
  destruct (proj1 (generateIndex_not_optional sampleEnv disabledModTask eq_refl)
              "mods/sodium.jar.disabled" clientOnlyFile Hk)
    as (entry & Hin & _ & Hp & Hc & Hs).
  exists entry. split; [exact Hin |]. split; [exact Hp |]. split; [exact Hc |].
  exact Hs.
Defined.

End ExportFacts.

(** ** IconList: the files under the icon directory *)

Module IconFilesFacts.
Import IconFiles.

Lemma folders_Folder (p : string) (sub : list Entry) :
  folders (Folder p sub) = S (foldersIn sub).
Proof.
  simpl. f_equal.
Qed.

Lemma filesOf_Folder (p : string) (sub : list Entry) :
  filesOf (Folder p sub) = filesIn sub.
Proof.
  simpl. unfold filesIn. induction sub as [|x r IH]; [done |]. simpl. by rewrite IH.
Qed.

Lemma scan_spec (entries : list Entry) (q : list (list Entry)) (acc : list string) :
  scan entries (q, acc) = (q ++ subfolders entries, acc ++ directFiles entries).
Proof.
  unfold scan. revert q acc. induction entries as [|e r IH]; intros q acc; simpl.
  - by rewrite !app_nil_r.
  - destruct e as [p|p sub]; simpl; rewrite IH; simpl.
    + by rewrite <- (assoc_L (++)).
    + by rewrite <- (assoc_L (++)).
Qed.

Lemma weight_app (a b : list (list Entry)) : weight (a ++ b) = weight a + weight b.
Proof. induction a as [|x a IH]; simpl; [done |]. rewrite IH. lia. Qed.

Lemma weight_subfolders (l : list Entry) : weight (subfolders l) = foldersIn l.
Proof.
  induction l as [|e r IH]; simpl; [done |].
  destruct e as [p|p sub]; simpl.
  - exact IH.
  - rewrite IH. f_equal.
Qed.

Lemma filesIn_split (l : list Entry) :
  filesIn l ≡ₚ directFiles l ++ concat (filesIn <$> subfolders l).
Proof.
  induction l as [|e r IH]; simpl; [done |].
  destruct e as [p|p sub].
  - unfold filesIn in *. simpl. by rewrite IH.
  - change (filesIn (Folder p sub :: r)) with (filesOf (Folder p sub) ++ filesIn r).
    rewrite filesOf_Folder, IH. simpl.
    rewrite !(assoc (++)). f_equiv; [apply Permutation_app_comm | done].
Qed.

Lemma walk_spec (fuel : nat) (q : list (list Entry)) (acc : list string) :
  weight q < S fuel ->
  walk fuel q acc ≡ₚ acc ++ concat (filesIn <$> q).
Proof.
  revert q acc. induction fuel as [|n IH]; intros q acc Hw.
  - destruct q as [|first rest]; simpl in *; [by rewrite app_nil_r | lia].
  - destruct q as [|first rest]; simpl; [by rewrite app_nil_r |].
    rewrite scan_spec. rewrite IH.
    + rewrite fmap_app, concat_app, (filesIn_split first).
      rewrite <- !(assoc_L (++)). do 2 f_equiv. apply Permutation_app_comm.
    + simpl in Hw. rewrite weight_app, weight_subfolders. lia.
Qed.

Lemma walk_more_fuel (fuel : nat) (q : list (list Entry)) (acc : list string) :
  weight q <= fuel -> walk (S fuel) q acc = walk fuel q acc.
Proof.
  revert q acc. induction fuel as [|n IH]; intros q acc Hw.
  - destruct q as [|first rest]; simpl in *; [done | lia].
  - destruct q as [|first rest]; [done |].
    change (walk (S (S n)) (first :: rest) acc)
      with (let '(d, f) := scan first (rest, acc) in walk (S n) d f).
    change (walk (S n) (first :: rest) acc)
      with (let '(d, f) := scan first (rest, acc) in walk n d f).
    rewrite scan_spec. apply IH.
    simpl in Hw. rewrite weight_app, weight_subfolders. lia.
Qed.

Lemma walk_extends (fuel : nat) (q : list (list Entry)) (acc : list string) :
  exists more, walk fuel q acc = acc ++ more.
Proof.
  revert q acc. induction fuel as [|n IH]; intros q acc.
  - exists []. simpl. by rewrite app_nil_r.
  - destruct q as [|first rest]; simpl; [exists []; by rewrite app_nil_r |].
    rewrite scan_spec. destruct (IH (rest ++ subfolders first) (acc ++ directFiles first))
      as [more ->].
    exists (directFiles first ++ more). by rewrite (assoc_L (++)).
Qed.

(** X1: the worklist loop of [getIconFilePaths] returns every file below the
    icon directory exactly once, whatever the nesting, and nothing else; the
    files directly in the directory come first; the loop is done after one
    round per directory. *)
Theorem getIconFilePaths_all_files (root : list Entry) :
  getIconFilePaths root ≡ₚ filesIn root
  /\ (forall p, p ∈ getIconFilePaths root <-> p ∈ filesIn root)
  /\ (exists more, getIconFilePaths root = directFiles root ++ more)
  /\ (forall extra,
        walk (S (foldersIn root) + extra) [root] [] = getIconFilePaths root).
Proof.
  assert (Hperm : getIconFilePaths root ≡ₚ filesIn root).
  { unfold getIconFilePaths. rewrite walk_spec by (simpl; lia).
    simpl. by rewrite app_nil_r. }
  split; [done |]. split; [by intros p; rewrite Hperm |]. split.
  - unfold getIconFilePaths. simpl. rewrite scan_spec. simpl.
    apply walk_extends.
  - intros extra. unfold getIconFilePaths. induction extra as [|n IH].
    + by rewrite Nat.add_0_r.
    + rewrite <- IH. replace (S (foldersIn root) + S n) with (S (S (foldersIn root) + n)) by lia.
      apply walk_more_fuel. simpl. lia.
Qed.

End IconFilesFacts.

(** ** IconList: the rows and their index *)

Module IconRowsFacts.
Import IconList IconRows.

Lemma indexOf_snoc (icons : list MMCIcon) (it : MMCIcon) :
  indexOf (icons ++ [it]) = <[ m_key it := length icons ]> (indexOf icons).
Proof.
  unfold indexOf. rewrite imap_app, foldl_app. simpl.
  by rewrite Nat.add_0_r.
Qed.

(** An indexed key is the key of the row at its position. *)
Lemma indexOf_sound (icons : list MMCIcon) (k : string) (i : nat) :
  indexOf icons !! k = Some i ->
  exists it, icons !! i = Some it /\ m_key it = k.
Proof.
  induction icons as [|x icons IH] using rev_ind; [done |].
  rewrite indexOf_snoc. destruct (decide (m_key x = k)) as [<-|Hne].
  - rewrite lookup_insert_eq. intros [= <-]. exists x.
    split; [|done]. by rewrite lookup_app_r, Nat.sub_diag.
  - rewrite lookup_insert_ne by done. intros Hk.
    destruct (IH Hk) as (it & Hit & Hkey). exists it. split; [|done].
    by apply lookup_app_l_Some.
Qed.

(** Every row is indexed, at the last position that has its key. *)
Lemma indexOf_complete (icons : list MMCIcon) (i : nat) (it : MMCIcon) :
  icons !! i = Some it ->
  exists j, indexOf icons !! m_key it = Some j /\ i <= j.
Proof.
  induction icons as [|x icons IH] using rev_ind; [done |].
  rewrite indexOf_snoc. intros Hi.
  destruct (decide (m_key x = m_key it)) as [Heq|Hne].
  - rewrite Heq, lookup_insert_eq. exists (length icons). split; [done |].
    apply lookup_lt_Some in Hi. rewrite length_app in Hi. simpl in Hi. lia.
  - rewrite lookup_insert_ne by done.
    apply lookup_app_Some in Hi as [Hi|[_ Hi]]; [by apply IH |].
    destruct (i - length icons); simpl in Hi; [congruence | done].
Qed.

Lemma indexOf_NoDup (icons : list MMCIcon) (i : nat) (it : MMCIcon) :
  NoDup (m_key <$> icons) ->
  icons !! i = Some it -> indexOf icons !! m_key it = Some i.
Proof.
  intros Hnd Hi. destruct (indexOf_complete icons i it Hi) as (j & Hj & _).
  rewrite Hj. f_equal.
  destruct (indexOf_sound icons _ j Hj) as (it' & Hit' & Hkey).
  apply (NoDup_lookup (m_key <$> icons) j i (m_key it) Hnd).
  - rewrite list_lookup_fmap, Hit'. simpl. by rewrite Hkey.
  - by rewrite list_lookup_fmap, Hi.
Qed.

Lemma indexed_NoDup (s : Rows) : indexed s -> NoDup (m_key <$> m_icons s).
Proof.
  intros [_ Hrows]. apply NoDup_alt. intros i j k Hi Hj.
  rewrite list_lookup_fmap in Hi, Hj.
  destruct (m_icons s !! i) as [a|] eqn:Ha; [|done].
  destruct (m_icons s !! j) as [b|] eqn:Hb; [|done].
  simpl in Hi, Hj. apply Hrows in Ha, Hb.
  injection Hi as Hi. injection Hj as Hj. rewrite Hi in Ha. rewrite Hj in Hb. congruence.
Qed.

Lemma indexed_noRows : indexed noRows.
Proof. split; intros ? ?; simpl; [by rewrite lookup_empty | by rewrite lookup_nil]. Qed.

Lemma reindex_indexed (s : Rows) :
  NoDup (m_key <$> m_icons s) -> indexed (reindex s).
Proof.
  intros Hnd. split; simpl.
  - apply indexOf_sound.
  - intros i it. by apply indexOf_NoDup.
Qed.

Section Parts.
Variable isNull : string -> bool.
Variable replace : IconType -> string -> MMCIcon -> MMCIcon.
Hypothesis replace_key : forall t src it, m_key (replace t src it) = m_key it.

Lemma indexed_alter (s : Rows) (f : MMCIcon -> MMCIcon) (i : nat) :
  (forall it, m_key (f it) = m_key it) ->
  indexed s ->
  indexed {| m_icons := alter f i (m_icons s); m_nameIndex := m_nameIndex s |}.
Proof.
  intros Hf [Hidx Hrows]. split; simpl.
  - intros k j Hk. destruct (Hidx k j Hk) as (it & Hit & Hkey).
    destruct (decide (i = j)) as [-> |Hne].
    + exists (f it). rewrite list_lookup_alter_eq, Hit. split; [done |]. by rewrite Hf.
    + exists it. by rewrite list_lookup_alter_ne.
  - intros j it. destruct (decide (i = j)) as [-> |Hne].
    + rewrite list_lookup_alter_eq. destruct (m_icons s !! j) as [a|] eqn:Ha; [|done].
      intros [= <-]. rewrite Hf. by apply Hrows.
    + rewrite list_lookup_alter_ne by done. apply Hrows.
Qed.

Lemma indexed_push (s : Rows) (it : MMCIcon) :
  m_nameIndex s !! m_key it = None ->
  indexed s ->
  indexed {| m_icons := m_icons s ++ [it];
             m_nameIndex := <[ m_key it := length (m_icons s ++ [it]) - 1 ]> (m_nameIndex s) |}.
Proof.
  intros Hnew [Hidx Hrows].
  assert (Hlen : length (m_icons s ++ [it]) - 1 = length (m_icons s))
    by (rewrite length_app; simpl; lia).
  rewrite Hlen. split; simpl.
  - intros k j. destruct (decide (m_key it = k)) as [<-|Hne].
    + rewrite lookup_insert_eq. intros [= <-]. exists it.
      split; [|done]. by rewrite lookup_app_r, Nat.sub_diag.
    + rewrite lookup_insert_ne by done. intros Hk.
      destruct (Hidx k j Hk) as (a & Ha & Hkey). exists a. split; [|done].
      by apply lookup_app_l_Some.
  - intros j a Hj. apply lookup_app_Some in Hj as [Hj|[Hge Hj]].
    + rewrite lookup_insert_ne; [by apply Hrows |].
      intros Heq. apply Hrows in Hj. congruence.
    + destruct (j - length (m_icons s)) as [|n] eqn:Hd; simpl in Hj; [|done].
      injection Hj as <-. rewrite lookup_insert_eq. f_equal. lia.
Qed.


Lemma addIcon_indexed (key name path : string) (type : IconType) (s : Rows) :
  indexed s -> indexed (addIcon isNull replace key name path type s).1.
Proof.
  intros Hs. unfold addIcon. destruct (isNull path); [done |].
  destruct (m_nameIndex s !! key) as [i|] eqn:Hk; simpl.
  - by apply indexed_alter.
  - pose proof (indexed_push s (replace type path (blank key name))) as Hp.
    rewrite replace_key in Hp. simpl in Hp. by apply Hp.
Qed.

Lemma alter_keys (f : MMCIcon -> MMCIcon) (i : nat) (icons : list MMCIcon) :
  (forall it, m_key (f it) = m_key it) ->
  m_key <$> alter f i icons = m_key <$> icons.
Proof.
  intros Hf. apply list_eq. intros j. rewrite !list_lookup_fmap.
  destruct (decide (i = j)) as [-> |Hne].
  - rewrite list_lookup_alter_eq. destruct (icons !! j); simpl; [by rewrite Hf | done].
  - by rewrite list_lookup_alter_ne.
Qed.

Lemma indexed_key_elem (s : Rows) (key : string) :
  indexed s -> is_Some (m_nameIndex s !! key) <-> key ∈ m_key <$> m_icons s.
Proof.
  intros [Hidx Hrows]. rewrite list_elem_of_fmap. split.
  - intros [i Hi]. destruct (Hidx key i Hi) as (it & Hit & Hkey).
    exists it. split; [done |]. by apply list_elem_of_lookup_2 in Hit.
  - intros (it & -> & Hin). apply list_elem_of_lookup in Hin as [i Hi].
    exists i. by apply Hrows.
Qed.





Lemma put_keys (key : string) (s : Rows) (t : IconType) (src nm : string) :
  indexed s ->
  m_key <$> m_icons
    (match m_nameIndex s !! key with
     | Some iter => {| m_icons := alter (replace t src) iter (m_icons s);
                       m_nameIndex := m_nameIndex s |}
     | None => {| m_icons := m_icons s ++ [replace t src (blank key nm)];
                  m_nameIndex := <[ key := length (m_icons s ++ [replace t src (blank key nm)]) - 1 ]>
                                   (m_nameIndex s) |}
     end)
  = (m_key <$> m_icons s) ++ (if bool_decide (key ∈ m_key <$> m_icons s)
                              then [] else [key]).
Proof.
  intros Hs. pose proof (indexed_key_elem s key Hs) as Hel.
  destruct (m_nameIndex s !! key) as [i|] eqn:Hk; simpl.
  - rewrite bool_decide_eq_true_2 by (apply Hel; eauto).
    rewrite app_nil_r. by apply alter_keys.
  - rewrite bool_decide_eq_false_2.
    + rewrite fmap_app. simpl. by rewrite replace_key.
    + intros Hin. apply Hel in Hin as [? ?]. congruence.
Qed.

Lemma addThemeIcon_keys (key : string) (s : Rows) :
  indexed s ->
  m_key <$> m_icons (addThemeIcon replace key s).1
  = (m_key <$> m_icons s) ++ (if bool_decide (key ∈ m_key <$> m_icons s)
                              then [] else [key]).
Proof.
  intros Hs. unfold addThemeIcon. pose proof (put_keys key s Builtin key key Hs) as Hkeys.
  by destruct (m_nameIndex s !! key).
Qed.

(** X3: what adding an icon does to the rows: a null icon is refused and
    nothing changes; otherwise the call succeeds, a key that is already
    indexed keeps its row (and the number of rows), a new key gets one row at
    the end, and in both cases the key is then indexed at a row with this key. *)
Theorem addIcon_rows (key name path : string) (type : IconType) (s : Rows) :
  indexed s ->
  (isNull path = true -> addIcon isNull replace key name path type s = (s, false))
  /\ (isNull path = false ->
      (addIcon isNull replace key name path type s).2 = true
      /\ m_key <$> m_icons (addIcon isNull replace key name path type s).1
         = (m_key <$> m_icons s) ++ (if bool_decide (key ∈ m_key <$> m_icons s)
                                     then [] else [key])
      /\ (exists i it,
             m_nameIndex (addIcon isNull replace key name path type s).1 !! key = Some i
             /\ m_icons (addIcon isNull replace key name path type s).1 !! i = Some it
             /\ m_key it = key))
  /\ (addThemeIcon replace key s).2 = true
  /\ m_key <$> m_icons (addThemeIcon replace key s).1
     = (m_key <$> m_icons s) ++ (if bool_decide (key ∈ m_key <$> m_icons s)
                                 then [] else [key]).
Proof.
  intros Hs.
  split; [|split; [|split]].
  - intros Hnull. unfold addIcon. by rewrite Hnull.
  - intros Hnull.
    pose proof (addIcon_indexed key name path type s Hs) as [Hidx _].
    unfold addIcon in *. rewrite Hnull in *.
    split; [by destruct (m_nameIndex s !! key) |].
    split.
    + pose proof (put_keys key s type path name Hs) as Hkeys.
      by destruct (m_nameIndex s !! key).
    + assert (Hsome : is_Some (m_nameIndex
                (match m_nameIndex s !! key with
                 | Some iter => ({| m_icons := alter (replace type path) iter (m_icons s);
                                    m_nameIndex := m_nameIndex s |}, true)
                 | None => ({| m_icons := m_icons s ++ [replace type path (blank key name)];
                               m_nameIndex := <[ key := length (m_icons s ++ [replace type path (blank key name)]) - 1 ]>
                                                (m_nameIndex s) |}, true)
                 end).1 !! key)).
      { destruct (m_nameIndex s !! key) as [i|] eqn:Hk; simpl.
        - by rewrite Hk.
        - by rewrite lookup_insert_eq. }
      destruct Hsome as [i Hi]. destruct (Hidx key i Hi) as (it & Hit & Hkey).
      by exists i, it.
  - unfold addThemeIcon. by destruct (m_nameIndex s !! key).
  - by apply addThemeIcon_keys.
Qed.



End Parts.

(** X5: [reindex] rebuilds the index from the rows alone: every indexed key is
    the key of the row at its position, every row is indexed at the last row
    with its key, and index and rows agree exactly when no two rows share a
    key. *)
Theorem reindex_rows (s : Rows) :
  m_icons (reindex s) = m_icons s
  /\ (forall k i, m_nameIndex (reindex s) !! k = Some i ->
                  exists it, m_icons s !! i = Some it /\ m_key it = k)
  /\ (forall i it, m_icons s !! i = Some it ->
                   exists j, m_nameIndex (reindex s) !! m_key it = Some j /\ i <= j)
  /\ (indexed (reindex s) <-> NoDup (m_key <$> m_icons s))
  /\ reindex (reindex s) = reindex s.
Proof.
  split; [done |]. split; [apply indexOf_sound |]. split; [apply indexOf_complete |].
  split; [|done]. split; [apply (indexed_NoDup (reindex s)) | apply reindex_indexed].
Qed.


(** *** Instances *)

Import Instances.


Lemma addIcon_rows_witness :
  (forall t src it, m_key (setImage t src it) = m_key it)
  /\ indexed noRows
  /\ addIcon noIcon setImage "broken" "broken" "" FileBased noRows = (noRows, false)
  /\ m_key <$> m_icons (addIcon noIcon setImage "flat/tree" "flat » tree"
                          "/icons/flat/tree.png" FileBased noRows).1
     = ["flat/tree"].
Proof.
  assert (Hkey : forall t src it, m_key (setImage t src it) = m_key it)
    by (intros t src it; reflexivity).
  split; [exact Hkey |]. split; [exact indexed_noRows |].
  split.
  - exact (proj1 (addIcon_rows noIcon setImage Hkey "broken" "broken" "" FileBased
                    noRows indexed_noRows) eq_refl).
  - destruct (proj1 (proj2 (addIcon_rows noIcon setImage Hkey "flat/tree" "flat » tree"
                    "/icons/flat/tree.png" FileBased noRows indexed_noRows)) eq_refl)
      as (_ & Hk & _).
    exact Hk.
Defined.



End IconRowsFacts.

(** ** IconList: dropping icon files, and the order of the rows *)

Module IconDropFacts.
Import QString IconDrop.

Section Files.
Variable isReadable : string -> bool.
Variable isFile : string -> bool.
Variable isIconSuffix : string -> bool.
Variable PathCombine : string -> string -> string.
Variable getDirectory : string.

(** X7: a drop copies files only for an action with the copy bit, and then
    exactly the local files among the URLs that are readable regular files with
    an icon suffix, each into the icon directory under its own file name;
    an ignored drop succeeds without copying, a drop without data or URLs, or
    with another action, fails without copying. *)
Theorem dropMimeData_copies (data : option QMimeData) (action : Z) :
  let r := dropMimeData isReadable isFile isIconSuffix PathCombine getDirectory data action in
  (forall src target,
      (src, target) ∈ r.2 <->
      action <> IgnoreAction /\ Z.land action CopyAction <> 0%Z
      /\ exists d url,
          data = Some d /\ hasUrls d = true /\ url ∈ urls d
          /\ isLocalFile url = true /\ src = toLocalFile url
          /\ isReadable src = true /\ isFile src = true
          /\ isIconSuffix (QFileInfo.suffix src) = true
          /\ target = PathCombine getDirectory (QFileInfo.fileName src))
  /\ (r.1 = true <->
      action = IgnoreAction
      \/ (Z.land action CopyAction <> 0%Z
          /\ exists d, data = Some d /\ hasUrls d = true))
  /\ (action = MoveAction \/ action = LinkAction -> r = (false, [])).
Proof.
  intros r. unfold r, dropMimeData, supportedDropActions. split; [|split].
  - intros src target.
    destruct (Z.eqb_spec action IgnoreAction) as [Hig|Hig]; simpl.
    { split; [intros Hin; by apply elem_of_nil in Hin | by intros (? & _)]. }
    destruct data as [d|]; simpl;
      [|split; [intros Hin; by apply elem_of_nil in Hin
               | by intros (_ & _ & ? & ? & ? & _)]].
    destruct (Z.eqb_spec (Z.land action CopyAction) 0) as [Hc|Hc]; simpl.
    { split; [intros Hin; by apply elem_of_nil in Hin | by intros (_ & ? & _)]. }
    destruct (hasUrls d) eqn:Hurls; simpl.
    + unfold installIcons. rewrite list_elem_of_In, in_flat_map. split.
      * intros (file & Hfile & Hin). apply list_elem_of_In in Hfile, Hin.
        apply list_elem_of_omap in Hfile as (url & Hurl & Hloc).
        destruct (isLocalFile url) eqn:Hlocal; [|done]. injection Hloc as <-.
        unfold installIcon in Hin.
        destruct (isReadable (toLocalFile url)) eqn:Hr; simpl in Hin;
          [|by apply elem_of_nil in Hin].
        destruct (isFile (toLocalFile url)) eqn:Hf; simpl in Hin;
          [|by apply elem_of_nil in Hin].
        destruct (isIconSuffix _) eqn:Hs; simpl in Hin; [|by apply elem_of_nil in Hin].
        apply list_elem_of_singleton in Hin. injection Hin as -> ->.
        split; [done |]. split; [done |]. exists d, url. by repeat split.
      * intros (_ & _ & d' & url & [= <-] & _ & Hurl & Hlocal & -> & Hr & Hf & Hs & ->).
        exists (toLocalFile url). split.
        -- apply list_elem_of_In, list_elem_of_omap. exists url.
           split; [done |]. by rewrite Hlocal.
        -- unfold installIcon. rewrite Hr, Hf, Hs. simpl. by left.
    + split; [intros Hin; by apply elem_of_nil in Hin |].
      intros (_ & _ & d' & url & [= <-] & ? & _). congruence.
  - destruct (Z.eqb_spec action IgnoreAction) as [Hig|Hig]; simpl; [split; by eauto |].
    destruct data as [d|]; simpl;
      [|split; [done | intros [?|(_ & ? & ? & _)]; done]].
    destruct (Z.eqb_spec (Z.land action CopyAction) 0) as [Hc|Hc]; simpl.
    { split; [done | intros [?|(? & _)]; done]. }
    destruct (hasUrls d) eqn:Hurls; simpl.
    + split; [|done]. intros _. right. split; [done |]. by exists d.
    + split; [done |]. intros [?|(_ & d' & [= <-] & ?)]; [done | congruence].
  - intros [-> | ->]; simpl; by destruct data.
Qed.

End Files.
End IconDropFacts.

Module IconSortFacts.
Import QString IconList IconSort.

Section Compare.
Variable localeAwareCompare : string -> string -> Z.
Variable separator : ascii.
Hypothesis compare_asym :
  forall x y, (localeAwareCompare x y < 0)%Z -> ~ (localeAwareCompare y x < 0)%Z.
Hypothesis compare_trans :
  forall x y z, (localeAwareCompare x y < 0)%Z -> (localeAwareCompare y z < 0)%Z ->
                (localeAwareCompare x z < 0)%Z.

(** X8: the comparison of [sortIconList] puts every root-level icon before
    every icon of a subdirectory, never the other way round, and it is a strict
    order (no icon before itself or before one that is before it, and
    transitive), provided [localeAwareCompare] is one. *)
Theorem iconLess_strict_order (a b c : MMCIcon) :
  (contains separator (m_key a) = false -> contains separator (m_key b) = true ->
   iconLess localeAwareCompare separator a b = true
   /\ iconLess localeAwareCompare separator b a = false)
  /\ iconLess localeAwareCompare separator a a = false
  /\ (iconLess localeAwareCompare separator a b = true ->
      iconLess localeAwareCompare separator b a = false)
  /\ (iconLess localeAwareCompare separator a b = true ->
      iconLess localeAwareCompare separator b c = true ->
      iconLess localeAwareCompare separator a c = true).
Proof.
  unfold iconLess. split; [|split; [|split]].
  - intros -> ->. done.
  - rewrite Bool.eqb_reflx. simpl. apply Z.ltb_ge.
    destruct (Z.lt_ge_cases (localeAwareCompare (m_key a) (m_key a)) 0) as [Hlt|?]; [|lia].
    by destruct (compare_asym _ _ Hlt).
  - destruct (contains separator (m_key a)), (contains separator (m_key b)); simpl;
      try done; intros Hlt%Z.ltb_lt; apply Z.ltb_ge;
      destruct (Z.lt_ge_cases (localeAwareCompare (m_key b) (m_key a)) 0) as [Hlt'|?];
      try lia; by destruct (compare_asym _ _ Hlt).
  - destruct (contains separator (m_key a)), (contains separator (m_key b)),
             (contains separator (m_key c)); simpl; try done;
      intros H1%Z.ltb_lt H2%Z.ltb_lt; apply Z.ltb_lt; by eapply compare_trans.
Qed.

End Compare.

Import IconRows Instances.

Lemma iconLess_strict_order_witness :
  (forall x y, (byLength x y < 0)%Z -> ~ (byLength y x < 0)%Z)
  /\ (forall x y z, (byLength x y < 0)%Z -> (byLength y z < 0)%Z -> (byLength x z < 0)%Z)
  /\ contains "/" (m_key grassIcon) = false
  /\ contains "/" (m_key treeIcon) = true
  /\ iconLess byLength "/" grassIcon treeIcon = true
  /\ iconLess byLength "/" treeIcon grassIcon = false.
Proof.
  assert (Hasym : forall x y, (byLength x y < 0)%Z -> ~ (byLength y x < 0)%Z)
    by (unfold byLength; lia).
  assert (Htrans : forall x y z, (byLength x y < 0)%Z -> (byLength y z < 0)%Z ->
                                 (byLength x z < 0)%Z)
    by (unfold byLength; lia).
  split; [exact Hasym |]. split; [exact Htrans |].
  split; [reflexivity |]. split; [reflexivity |].
  exact (proj1 (iconLess_strict_order byLength "/" Hasym Htrans grassIcon treeIcon grassIcon)
           eq_refl eq_refl).
Defined.

End IconSortFacts.

(** ** IconList: what a watch run leaves in the watcher *)

Module IconWatchFacts.
Import IconList IconWatch IconListFacts.

Section Watch.
Variable canWatch : string -> bool.

Lemma elem_of_filtered (l : list string) (p : string) :
  p ∈ (list_to_set (List.filter canWatch l) : gset string)
  <-> p ∈ l /\ canWatch p = true.
Proof. rewrite elem_of_list_to_set, !list_elem_of_In. apply filter_In. Qed.

Lemma filtered_cons (p : string) (l : list string) :
  (list_to_set (List.filter canWatch (p :: l)) : gset string)
  = (if canWatch p then {[ p ]} else ∅) ∪ list_to_set (List.filter canWatch l).
Proof. simpl. destruct (canWatch p); simpl; set_solver. Qed.

Lemma filtered_app (a b : list string) :
  (list_to_set (List.filter canWatch (a ++ b)) : gset string)
  = list_to_set (List.filter canWatch a) ∪ list_to_set (List.filter canWatch b).
Proof. rewrite List.filter_app. apply list_to_set_app_L. Qed.

Lemma addPath_exact (w : gset string) (p : string) :
  (addPath canWatch w p).1 = w ∪ (if canWatch p then {[ p ]} else ∅)
  /\ ((addPath canWatch w p).2 = true <-> canWatch p = true /\ p ∉ w).
Proof.
  unfold addPath. case_bool_decide as Hin; simpl.
  - split; [destruct (canWatch p); set_solver | split; [done | by intros [_ ?]]].
  - destruct (canWatch p); simpl; split; try set_solver; split; by try intros [? ?].
Qed.

Lemma watchEntries_exact (es : list DirTree) :
  Forall (watchExact canWatch) es ->
  forall wa lg watching,
    (watchEntries canWatch es (wa, lg, watching)).1.1
    = wa ∪ list_to_set (List.filter canWatch (concat (visited <$> es)))
    /\ ((watchEntries canWatch es (wa, lg, watching)).2 = true
        <-> watching = true
            \/ exists p, p ∈ concat (visited <$> es) /\ canWatch p = true /\ p ∉ wa).
Proof.
  induction 1 as [|e es He Hes IH]; intros wa lg watching.
  - simpl. split; [set_solver |]. split; [by left |].
    intros [?|(p & Hp & _)]; [done | by apply elem_of_nil in Hp].
  - simpl. destruct (He wa) as [Hw Hr].
    destruct (addPathRecursively canWatch e wa) as [[wb lge] sub]. simpl in Hw, Hr.
    destruct (IH wb (lg ++ lge) (if sub then true else watching)) as [IH1 IH2].
    split.
    + rewrite IH1, Hw, filtered_app. unfold accepted. by rewrite (assoc_L (∪)).
    + rewrite IH2. split.
      * intros [Hs|(p & Hp & Hc & Hn)].
        -- destruct sub; [|by left]. destruct Hr as [Hr _].
           destruct (Hr eq_refl) as (p & Hp & Hc & Hn).
           right. exists p. rewrite elem_of_app. tauto.
        -- right. exists p. rewrite elem_of_app. split; [by right |].
           split; [done |]. rewrite Hw in Hn. set_solver.
      * intros [->|(p & Hp & Hc & Hn)]; [left; by destruct sub |].
        apply elem_of_app in Hp as [Hp|Hp].
        -- left. destruct Hr as [_ Hr]. rewrite Hr; [done |]. by exists p.
        -- destruct (decide (p ∈ wb)) as [Hin|Hnin]; [|right; by exists p].
           left. rewrite Hw in Hin. apply elem_of_union in Hin as [?|Hin]; [done |].
           unfold accepted in Hin. apply elem_of_filtered in Hin as [Hv _].
           destruct Hr as [_ Hr]. rewrite Hr; [done |]. by exists p.
Qed.

Lemma addPathRecursively_exact (t : DirTree) : watchExact canWatch t.
Proof.
  induction t as [p e es IH] using DirTree_forall_ind.
  intros w. rewrite addPathRecursively_unfold. unfold accepted.
  rewrite visited_unfold. destruct e; simpl negb; cbv iota.
  - destruct (addPath_exact w p) as [Hw Hr].
    destruct (watchEntries_exact es IH (addPath canWatch w p).1
                [(p, (addPath canWatch w p).2)] (addPath canWatch w p).2) as [H1 H2].
    split.
    + rewrite H1, Hw, filtered_cons. by rewrite (assoc_L (∪)).
    + rewrite H2, Hr. split.
      * intros [[Hc Hn]|(q & Hq & Hc & Hn)].
        -- exists p. split; [by left | done].
        -- exists q. split; [by right |]. split; [done |]. rewrite Hw in Hn. set_solver.
      * intros (q & Hq & Hc & Hn). apply elem_of_cons in Hq as [->|Hq]; [by left |].
        destruct (decide (q ∈ (addPath canWatch w p).1)) as [Hin|Hnin];
          [|right; by exists q].
        left. rewrite Hw in Hin. apply elem_of_union in Hin as [?|Hin]; [done |].
        destruct (canWatch p); [|set_solver].
        apply elem_of_singleton in Hin as ->. done.
  - simpl. split; [set_solver |]. split; [done |]. intros (q & Hq & _).
    by apply elem_of_nil in Hq.
Qed.

(** X9: what a watch run leaves in the watcher: the paths watched before and
    the visited directories the system accepts, nothing else; it reports
    success exactly when one of these was not watched before. So starting
    after [stopWatching] watches exactly the accepted directories, and starting
    a second time without stopping reports failure although the watches are
    all still there. *)
Theorem startWatching_exact (t : DirTree) (s : Watching) :
  m_watcher (startWatching canWatch t s) = m_watcher s ∪ accepted canWatch t
  /\ (m_isWatching (startWatching canWatch t s) = true
      <-> exists p, p ∈ visited t /\ canWatch p = true /\ p ∉ m_watcher s)
  /\ m_watcher (startWatching canWatch t (stopWatching s)) = accepted canWatch t
  /\ (m_isWatching (startWatching canWatch t (stopWatching s)) = true
      <-> exists p, p ∈ visited t /\ canWatch p = true)
  /\ m_isWatching (startWatching canWatch t (startWatching canWatch t s)) = false
  /\ m_watcher (startWatching canWatch t (startWatching canWatch t s))
     = m_watcher (startWatching canWatch t s).
Proof.
  assert (Hstart : forall s',
    m_watcher (startWatching canWatch t s') = m_watcher s' ∪ accepted canWatch t
    /\ (m_isWatching (startWatching canWatch t s') = true
        <-> exists p, p ∈ visited t /\ canWatch p = true /\ p ∉ m_watcher s')).
  { intros s'. destruct (addPathRecursively_exact t (m_watcher s')) as [Hw Hr].
    unfold startWatching.
    destruct (addPathRecursively canWatch t (m_watcher s')) as [[w lg] r]. done. }
  destruct (Hstart s) as [Hw Hr].
  destruct (Hstart (stopWatching s)) as [Hw0 Hr0].
  destruct (Hstart (startWatching canWatch t s)) as [Hw2 Hr2].
  split; [done |]. split; [done |]. split; [|split; [|split]].
  - rewrite Hw0. simpl. set_solver.
  - rewrite Hr0. simpl. split.
    + intros (p & Hp & Hc & _). by exists p.
    + intros (p & Hp & Hc). exists p. split; [done |]. split; [done |]. set_solver.
  - apply not_true_is_false. rewrite Hr2. intros (p & Hp & Hc & Hn).
    destruct Hn. rewrite Hw. apply elem_of_union. right.
    unfold accepted. by apply elem_of_filtered.
  - rewrite Hw2, Hw. set_solver.
Qed.

End Watch.
End IconWatchFacts.

(** ** ModrinthPackExportTask: the manifest, the response and the stages *)

Module ExportMoreFacts.
Import QString QFileInfo Json ModrinthPackExportTask ExportParts QStringFacts QFileInfoFacts ExportFacts.

Lemma value_set_ne (key key' : string) (v : QJsonValue) (o : QJsonObject) :
  key <> key' -> value (set key v o) key' = value o key'.
Proof.
  intros Hne. induction o as [|[k x] o IH]; simpl.
  - apply String.eqb_neq in Hne. by rewrite Hne.
  - destruct (String.eqb k key) eqn:Hk; simpl.
    + apply String.eqb_eq in Hk as ->. apply String.eqb_neq in Hne. by rewrite Hne.
    + destruct (String.eqb k key'); [done | exact IH].
Qed.

(** X10: the manifest document: its fixed members, the summary only when there
    is one, and one dependency per component the profile has. *)
Theorem generateIndex_header (E : Env) (t : Task) :
  let doc := generateIndex E t in
  let dep := fun key uid =>
    at_ (at_ doc "dependencies") key
    = match getComponent E uid with
      | Some m_version => JString m_version
      | None => JUndefined
      end in
  at_ doc "formatVersion" = JDouble 1
  /\ at_ doc "game" = JString "minecraft"
  /\ at_ doc "name" = JString (name t)
  /\ at_ doc "versionId" = JString (version t)
  /\ at_ doc "summary" = (if isEmpty (summary t) then JUndefined else JString (summary t))
  /\ dep "minecraft" "net.minecraft"
  /\ dep "quilt-loader" "org.quiltmc.quilt-loader"
  /\ dep "fabric-loader" "net.fabricmc.fabric-loader"
  /\ dep "forge" "net.minecraftforge"
  /\ dep "neoforge" "net.neoforged"
  /\ (forall key, key ∈ (toObject (at_ doc "dependencies")).*1 ->
                  key ∈ ["minecraft"; "quilt-loader"; "fabric-loader"; "forge"; "neoforge"])
  /\ (forall key, key ∈ (toObject doc).*1 <->
                  key ∈ ["formatVersion"; "game"; "name"; "versionId"; "dependencies"; "files"]
                  \/ (key = "summary" /\ isEmpty (summary t) = false)).
Proof.
  intros doc dep. unfold dep, doc, generateIndex, dependency, at_.
  destruct (isEmpty (summary t));
    destruct (getComponent E "net.minecraft"),
             (getComponent E "org.quiltmc.quilt-loader"),
             (getComponent E "net.fabricmc.fabric-loader"),
             (getComponent E "net.minecraftforge"),
             (getComponent E "net.neoforged");
    simpl; repeat match goal with |- _ /\ _ => split end; try reflexivity;
    try (intros key Hin; repeat (apply elem_of_cons in Hin as [->|Hin]; [set_solver |]);
         by apply elem_of_nil in Hin);
    intros key; rewrite !elem_of_cons, elem_of_nil; naive_solver.
Qed.


(** X11: the file entries of the manifest: as many as there are resolved files,
    each with the download URL, both hashes and the size of its file, under the
    five member names of the format. *)
Theorem generateIndex_file_members (E : Env) (t : Task) :
  length (toArray (at_ (generateIndex E t) "files")) = base.size (resolvedFiles t)
  /\ (forall key value,
        resolvedFiles t !! key = Some value ->
        let entry := JObject (fileOut (optionalFiles t) key value) in
        entry ∈ toArray (at_ (generateIndex E t) "files")
        /\ at_ entry "downloads" = JArray [JString (rf_url value)]
        /\ at_ (at_ entry "hashes") "sha1" = JString (sha1 value)
        /\ at_ (at_ entry "hashes") "sha512" = JString (sha512 value)
        /\ at_ entry "fileSize" = JDouble (size value)
        /\ (forall k, k ∈ (toObject entry).*1
                       <-> k ∈ ["env"; "path"; "downloads"; "hashes"; "fileSize"])).
Proof.
  split.
  - rewrite generateIndex_files, length_fmap. apply length_map_to_list.
  - intros key value Hk entry. split.
    + apply generateIndex_entries. by exists key, value.
    + unfold entry, fileOut.
      destruct (optionalFiles t && String.eqb (suffix key) "disabled");
        destruct (decide (rf_side value = ClientSide)); by repeat split.
Qed.

(** *** The response, path by path *)

Lemma mapFile_fold_lookup (E : Env) (doc : QJsonValue)
    (rf : gmap string ResolvedFile) (ph : gmap string string) (p : string) :
  map_fold (mapFile E doc) rf ph !! p
  = match ph !! p with
    | Some h => mapFile E doc p h rf !! p
    | None => rf !! p
    end.
Proof.
  revert ph. apply (map_fold_weak_ind
    (fun r m => r !! p = match m !! p with
                         | Some h => mapFile E doc p h rf !! p
                         | None => rf !! p
                         end)).
  - by rewrite lookup_empty.
  - intros i x m r Hi IH. destruct (decide (i = p)) as [->|Hne].
    + rewrite lookup_insert_eq. rewrite Hi in IH. unfold mapFile.
      destruct (findVersionFile doc x); [by rewrite !lookup_insert_eq | done].
    + rewrite lookup_insert_ne by done. rewrite <- IH. unfold mapFile.
      destruct (findVersionFile doc x); [by rewrite lookup_insert_ne | done].
Qed.

(** X12: a record is taken for a hash only if it is a file of the version found
    under this hash and carries this very sha512; it is the first such file. *)
Theorem findVersionFile_sound (doc : QJsonValue) (hashValue : string) :
  (forall file,
      findVersionFile doc hashValue = Some file ->
      file ∈ toArray (at_ (at_ doc hashValue) "files")
      /\ at_ (at_ file "hashes") "sha512" = JString hashValue
      /\ toObject (at_ doc hashValue) <> [])
  /\ (findVersionFile doc hashValue = None <->
      toObject (at_ doc hashValue) = []
      \/ forall file, file ∈ toArray (at_ (at_ doc hashValue) "files") ->
                      at_ (at_ file "hashes") "sha512" <> JString hashValue).
Proof.
  assert (Heq : forall v, eqString v hashValue = true <-> v = JString hashValue).
  { intros v. destruct v; simpl; try (split; [done | discriminate]).
    rewrite String.eqb_eq. split; [by intros -> | by intros [= ->]]. }
  unfold findVersionFile.
  change (at_ (at_ doc hashValue) "files")
    with (value (toObject (at_ doc hashValue)) "files").
  remember (toObject (at_ doc hashValue)) as obj eqn:Hobj.
  destruct obj as [|kv obj].
  - split; [done |]. split; [by left | done].
  - split.
    + intros file Hfind. apply find_some in Hfind as [Hin Hsha].
      split; [by apply list_elem_of_In |]. split; [by apply Heq | done].
    + split.
      * intros Hnone. right. intros file Hin Hsha.
        apply list_elem_of_In in Hin.
        pose proof (find_none _ _ Hnone file Hin) as Hf. simpl in Hf.
        apply Heq in Hsha. congruence.
      * intros [?|Hall]; [done |].
        destruct (List.find _ _) as [file|] eqn:Hfind; [|done].
        apply find_some in Hfind as [Hin Hsha].
        destruct (Hall file); [by apply list_elem_of_In | by apply Heq].
Qed.


(** X13: after a response that parses: a staged path with a record for its hash
    is resolved with the staged sha512 and the sha1, URL and size of the
    record, is among the files the archive excludes and is not written as an
    override; a path that was not staged keeps what the table had; and the
    pending hashes are cleared. *)
Theorem parseApiResponse_matched (E : Env) (t : Task) (response : string)
    (doc : QJsonValue) :
  requireDocument E response = inr doc ->
  let r := parseApiResponse E response t in
  pendingHashes r.1 = ∅
  /\ (forall p, pendingHashes t !! p = None ->
                resolvedFiles r.1 !! p = resolvedFiles t !! p)
  /\ (forall p h file,
        pendingHashes t !! p = Some h ->
        findVersionFile doc h = Some file ->
        resolvedFiles r.1 !! p
        = Some {| sha1 := toString (at_ (at_ file "hashes") "sha1");
                  sha512 := h;
                  rf_url := toString (at_ file "url");
                  size := toInt (at_ file "size");
                  rf_side := valueInitSide E |}
        /\ exists zt,
            task r.1 = Some (ZipTask zt)
            /\ p ∈ zt_excludeFiles zt
            /\ (forall name, (name, FromDisk p) ∉ archive zt)).
Proof.
  intros Hdoc r. unfold r. rewrite (parseApiResponse_unfold E response doc t Hdoc).
  unfold buildZip. simpl. split; [done |]. split.
  - intros p Hp. by rewrite mapFile_fold_lookup, Hp.
  - intros p h file Hp Hfind.
    assert (Hres : map_fold (mapFile E doc) (resolvedFiles t) (pendingHashes t) !! p
                   = Some {| sha1 := toString (at_ (at_ file "hashes") "sha1");
                             sha512 := h;
                             rf_url := toString (at_ file "url");
                             size := toInt (at_ file "size");
                             rf_side := valueInitSide E |}).
    { rewrite mapFile_fold_lookup, Hp. unfold mapFile. rewrite Hfind.
      by rewrite lookup_insert_eq. }
    split; [done |]. eexists. split; [reflexivity |]. simpl.
    assert (Hex : p ∈ (map_to_list (map_fold (mapFile E doc) (resolvedFiles t)
                                      (pendingHashes t))).*1)
      by (apply elem_of_keys; by rewrite Hres).
    split; [done |]. intros name Hin.
    apply archive_members in Hin as [(d & _ & Hd)|(q & _ & Hnot & _ & Hq)]; [done |].
    injection Hq as <-. done.
Qed.

(** X14: what a run starts, and what [abort] then does. When the files cannot
    be listed the run fails, starts nothing and stays non-abortable. Otherwise
    it is abortable again and has started exactly one sub-task, the request
    when a file is staged and the archive task when none is, and [abort] is
    forwarded to that sub-task. After a response that does not parse no
    sub-task is left and [abort] returns false; after one that parses [abort]
    is forwarded to the archive task. *)
Theorem executeTask_sub_task (E : Env) (t : Task) (response : string) :
  match collectFileListRecursively E with
  | None =>
      (executeTask E t).2
      = [Status "Searching for files..."; Failed "Could not search for files"]
      /\ task (executeTask E t).1 = task t
      /\ abortable (executeTask E t).1 = false
  | Some fs =>
      abortable (executeTask E t).1 = true
      /\ (exists a text,
             (executeTask E t).2
             = [Status "Searching for files..."; Status "Finding file hashes...";
                Status text; Started a]
             /\ abort (executeTask E t).1 = (Some a, true)
             /\ ((exists hashes, a = ApiTask hashes "sha512"
                                 /\ hashes = (map_to_list (pendingHashes (executeTask E t).1)).*2)
                 <-> pendingHashes (executeTask E t).1 <> ∅)
             /\ ((exists zt, a = ZipTask zt) <-> pendingHashes (executeTask E t).1 = ∅))
  end
  /\ match requireDocument E response with
     | inl what =>
         parseApiResponse E response t
         = (withTask t None, [Failed ("Failed to parse versions response: " +:+ what)])
         /\ abort (parseApiResponse E response t).1 = (None, false)
     | inr doc =>
         exists zt,
           (parseApiResponse E response t).2
           = [Status "Adding files..."; Started (ZipTask zt)]
           /\ abort (parseApiResponse E response t).1 = (Some (ZipTask zt), true)
     end.
Proof.
  split.
  - destruct (collectFileListRecursively E) as [fs|] eqn:Hfs.
    + destruct (executeTask_state E t fs Hfs) as (_ & Hpend & _ & Hsig).
      rewrite Hsig. unfold executeTask, collectFiles. rewrite Hfs.
      rewrite collectHashes_unfold. simpl.
      unfold makeApiRequest. simpl. case_bool_decide as Hempty; simpl.
      * split; [done |]. do 2 eexists. split; [reflexivity |]. split; [done |].
        split; [|split; [done | by eauto]].
        split; [intros (? & Heq & _); discriminate Heq | done].
      * split; [done |]. do 2 eexists. split; [reflexivity |]. split; [done |].
        split; [split; [done | by eauto] |].
        split; [intros (? & Heq); discriminate Heq | done].
    + unfold executeTask, collectFiles. rewrite Hfs. done.
  - unfold parseApiResponse. destruct (requireDocument E response) as [what|doc].
    + done.
    + unfold buildZip. eexists. split; reflexivity.
Qed.

(** *** What is staged *)

Lemma enqueue_fold_value (E : Env) (prefixes : list string)
    (rf : gmap string ResolvedFile) (fs : list string) (ph : gmap string string)
    (p h : string) :
  foldl (enqueue E prefixes rf) ph fs !! p = Some h ->
  ph !! p = Some h \/ h = hashFile E p Sha512.
Proof.
  revert ph. induction fs as [|f fs IH]; intros ph; simpl; [by left |].
  intros Hp. apply IH in Hp as [Hp|?]; [|by right].
  unfold enqueue in Hp. case_bool_decide; [by left |].
  destruct (sensible prefixes f); [|by left].
  destruct (decide (f = p)) as [->|Hne].
  - rewrite lookup_insert_eq in Hp. right. congruence.
  - rewrite lookup_insert_ne in Hp by done. by left.
Qed.

(** X15: after a run that listed the files, a path is staged for the remote
    lookup exactly when it is a collected file of a sensible type that was not
    resolved from local metadata; it is staged with the sha512 of its file; and
    no path is both staged and resolved. *)
Theorem executeTask_staged (E : Env) (t : Task) (fs : list string) :
  collectFileListRecursively E = Some fs ->
  let t' := (executeTask E t).1 in
  (forall p, is_Some (pendingHashes t' !! p)
             <-> p ∈ fs /\ resolvedFiles t' !! p = None
                 /\ sensible (resolveModels E ∅).1 p = true)
  /\ (forall p h, pendingHashes t' !! p = Some h -> h = hashFile E p Sha512)
  /\ dom (pendingHashes t') ## dom (resolvedFiles t').
Proof.
  intros Hfs t'. destruct (executeTask_state E t fs Hfs) as (_ & Hpend & Hres & _).
  fold t' in Hpend, Hres.
  assert (Hiff : forall p, is_Some (pendingHashes t' !! p)
             <-> p ∈ fs /\ resolvedFiles t' !! p = None
                 /\ sensible (resolveModels E ∅).1 p = true).
  { intros p. rewrite Hpend, Hres, enqueue_fold_lookup, lookup_empty.
    split; [intros [[? ?]|?]; done | by right]. }
  split; [done |]. split.
  - intros p h Hp. rewrite Hpend in Hp.
    apply enqueue_fold_value in Hp as [Hp|?]; [by rewrite lookup_empty in Hp | done].
  - apply elem_of_disjoint. intros p Hp Hr.
    apply elem_of_dom, Hiff in Hp as (_ & Hnone & _).
    apply elem_of_dom in Hr as [? ?]. congruence.
Qed.


(** *** What is resolved from local metadata *)

Lemma resolveFromIndex_lookup (E : Env) (resource : Resource)
    (rf : gmap string ResolvedFile) (k : string) (v : ResolvedFile) :
  resolveFromIndex E resource rf !! k = Some v ->
  rf !! k = Some v \/ resolvedLocally E resource k v.
Proof.
  unfold resolveFromIndex. destruct (metadata resource) as [md|] eqn:Hmd; [|by left].
  destruct (isEmpty (toEncoded (url md))) eqn:Hu; simpl; [by left |].
  case_bool_decide as Hhost; simpl; [|by left].
  destruct (filter E (relativePath resource)) eqn:Hfilter; [by left |].
  destruct (readFile E (relativePath resource)) as [| |data fileSize] eqn:Hread;
    [by left | by left |].
  destruct (decide (relativePath resource = k)) as [<-|Hne];
    [|rewrite lookup_insert_ne by done; by left].
  rewrite lookup_insert_eq. intros [= <-]. right. split; [done |].
  exists md, data, fileSize. simpl.
  split; [done |]. split; [by apply String.eqb_neq |].
  repeat (split; [done |]). unfold isEmpty. split.
  - destruct (String.eqb (hash_format md) "sha1") eqn:Hf.
    + apply String.eqb_eq in Hf. destruct (String.eqb (hash md) ""); [by right | by left].
    + by right.
  - destruct (String.eqb (hash_format md) "sha1") eqn:Hf; [by right |].
    destruct (String.eqb (hash_format md) "sha512") eqn:Hf'; [|by right].
    apply String.eqb_eq in Hf'. destruct (String.eqb (hash md) ""); [by right | by left].
Qed.

Lemma resolveResources_lookup (E : Env) (rs : list Resource)
    (rf : gmap string ResolvedFile) (k : string) (v : ResolvedFile) :
  foldl (fun r resource => resolveFromIndex E resource r) rf rs !! k = Some v ->
  rf !! k = Some v \/ exists resource, resource ∈ rs /\ resolvedLocally E resource k v.
Proof.
  revert rf. induction rs as [|r rs IH]; intros rf; simpl; [by left |].
  intros Hk. apply IH in Hk as [Hk|(resource & Hin & Hl)].
  - apply resolveFromIndex_lookup in Hk as [?|?]; [by left |].
    right. exists r. split; [by left | done].
  - right. exists resource. split; [by right | done].
Qed.

Lemma resolveModels_fold (E : Env) (models : list ModFolderModel)
    (acc : list string * gmap string ResolvedFile) :
  let r := foldl (fun acc model =>
                    (acc.1 ++ [dir model +:+ "/"],
                     foldl (fun r resource => resolveFromIndex E resource r) acc.2
                           (allResources model))) acc models in
  r.1 = acc.1 ++ ((fun model => dir model +:+ "/") <$> models)
  /\ forall k v, r.2 !! k = Some v ->
       acc.2 !! k = Some v
       \/ exists model resource, model ∈ models /\ resource ∈ allResources model
                                 /\ resolvedLocally E resource k v.
Proof.
  revert acc. induction models as [|m models IH]; intros acc; simpl.
  - split; [by rewrite app_nil_r | by left].
  - match goal with |- context [foldl _ ?x models] => destruct (IH x) as [H1 H2] end.
    split.
    + rewrite H1. simpl. by rewrite <- (assoc_L (++)).
    + intros k v Hk. apply H2 in Hk as [Hk|(model & resource & Hm & Hr & Hl)].
      * simpl in Hk. apply resolveResources_lookup in Hk as [?|(resource & Hr & Hl)];
          [by left |].
        right. exists m, resource. split; [by left | done].
      * right. exists model, resource. split; [by right | done].
Qed.

(** X16: the first loop of [collectHashes] from an empty table: the prefixes
    are the resource directories, each followed by "/", in order; and every
    entry of the table comes from a resource of one of the lists that has
    metadata of an allow-listed host, passes the filter and could be read.
    So nothing the filter excludes is resolved, and nothing is resolved when no
    resource has metadata. *)
Theorem resolveModels_provenance (E : Env) :
  (resolveModels E ∅).1 = (fun model => dir model +:+ "/") <$> resourceLists E
  /\ (forall k v,
        (resolveModels E ∅).2 !! k = Some v ->
        exists model resource,
          model ∈ resourceLists E /\ resource ∈ allResources model
          /\ resolvedLocally E resource k v)
  /\ (forall k, filter E k = true -> (resolveModels E ∅).2 !! k = None)
  /\ ((forall model resource, model ∈ resourceLists E -> resource ∈ allResources model ->
                              metadata resource = None) ->
      (resolveModels E ∅).2 = ∅).
Proof.
  destruct (resolveModels_fold E (resourceLists E) ([], ∅)) as [Hp Hk].
  fold (resolveModels E ∅) in Hp, Hk. simpl in Hp, Hk.
  assert (Hprov : forall k v,
        (resolveModels E ∅).2 !! k = Some v ->
        exists model resource,
          model ∈ resourceLists E /\ resource ∈ allResources model
          /\ resolvedLocally E resource k v).
  { intros k v Hkv. apply Hk in Hkv as [Hkv|?]; [by rewrite lookup_empty in Hkv | done]. }
  split; [done |]. split; [done |]. split.
  - intros k Hf. destruct ((resolveModels E ∅).2 !! k) as [v|] eqn:Hkv; [|done].
    apply Hprov in Hkv as (_ & _ & _ & _ & _ & _ & _ & _ & _ & _ & _ & Hfilter & _).
    congruence.
  - intros Hnone. apply map_empty. intros k.
    destruct ((resolveModels E ∅).2 !! k) as [v|] eqn:Hkv; [|done].
    apply Hprov in Hkv as (model & resource & Hm & Hr & _ & md & _ & _ & Hmd & _).
    rewrite (Hnone model resource Hm Hr) in Hmd. done.
Qed.

(** *** Sensible file types *)

Lemma startsWith_spec (s pre : string) :
  startsWith s pre = true <-> exists rest, s = pre +:+ rest.
Proof.
  unfold startsWith. revert s. induction pre as [|a pre IH]; intros s.
  - split; [intros _; by exists s | by destruct s].
  - destruct s as [|b s]; simpl.
    + split; [done | intros [rest Hr]; discriminate Hr].
    + destruct (Ascii.ascii_dec a b) as [->|Hne].
      * rewrite IH. split; intros [rest Hr]; exists rest.
        -- by rewrite Hr.
        -- by injection Hr.
      * split; [done |]. intros [rest Hr]. injection Hr as ? ?. done.
Qed.

(** X17: a path is of a sensible type exactly when it begins with one of the
    prefixes and ends in ".jar", ".litemod" or ".zip", possibly followed by
    ".disabled". *)
Theorem sensible_spec (prefixes : list string) (relative : string) :
  sensible prefixes relative = true
  <-> (exists prefix rest, prefix ∈ prefixes /\ relative = prefix +:+ rest)
      /\ (exists stem extension,
             extension ∈ ["jar"; "litemod"; "zip"]
             /\ (relative = stem +:+ "." +:+ extension
                 \/ relative = stem +:+ "." +:+ extension +:+ ".disabled")).
Proof.
  unfold sensible, FILE_EXTENSIONS.
  rewrite andb_true_iff, !existsb_exists. split.
  - intros [(prefix & Hin & Hpre) (ext & Hext & Hend)].
    apply startsWith_spec in Hpre as [rest Hrest]. split.
    + exists prefix, rest. split; [by apply list_elem_of_In | done].
    + apply orb_true_iff in Hend as [Hend|Hend];
        apply endsWith_spec in Hend as [stem Hstem]; exists stem, ext;
        (split; [by apply list_elem_of_In |]); [by left | by right].
  - intros [(prefix & rest & Hin & Hrest) (stem & ext & Hext & Hend)]. split.
    + exists prefix. split; [by apply list_elem_of_In |].
      apply startsWith_spec. by exists rest.
    + exists ext. split; [by apply list_elem_of_In |].
      apply orb_true_iff. destruct Hend as [Hend|Hend]; [left | right];
        apply endsWith_spec; by exists stem.
Qed.


(** X18: a run whose file listing succeeds starts from scratch: the file list,
    the staged hashes, the resolved files, the abortable flag and the sub-task
    it is entered with have no influence on what it emits or on the state it
    leaves. *)
Theorem executeTask_fresh (E : Env) (t : Task) (fs fs0 : list string)
    (ph : gmap string string) (rf : gmap string ResolvedFile) (b : bool)
    (a : option ActiveTask) :
  collectFileListRecursively E = Some fs ->
  executeTask E (withTask (setAbortable b (withMaps (withFiles t fs0) ph rf)) a)
  = executeTask E t.
Proof.
  intros Hfs. unfold executeTask, collectFiles. rewrite Hfs.
  rewrite !collectHashes_unfold. reflexivity.
Qed.

(** *** Instances *)

Import Examples Instances.

Lemma parseApiResponse_matched_witness :
  requireDocument resolverEnv "{}" = inr resolverResponse
  /\ pendingHashes (executeTask resolverEnv sampleTask).1 !! "mods/custom.jar"
     = Some "sha512-of-mods/custom.jar"
  /\ resolvedFiles (parseApiResponse resolverEnv "{}" (executeTask resolverEnv sampleTask).1).1
       !! "mods/custom.jar"
     = Some {| sha1 := "3f786850e387550fdab836ed7e6dc881de23001b";
               sha512 := "sha512-of-mods/custom.jar";
               rf_url := "https://cdn.modrinth.com/data/custom.jar";
               size := 2048;
               rf_side := UniversalSide |}.
Proof.
  split; [reflexivity |].
  assert (Hstaged : pendingHashes (executeTask resolverEnv sampleTask).1 !! "mods/custom.jar"
                    = Some "sha512-of-mods/custom.jar") by (vm_compute; reflexivity).
  split; [exact Hstaged |].
  destruct (parseApiResponse_matched resolverEnv (executeTask resolverEnv sampleTask).1
              "{}" resolverResponse eq_refl) as (_ & _ & Hm).
  destruct (Hm "mods/custom.jar" "sha512-of-mods/custom.jar" _ Hstaged eq_refl) as [Hres _].
  exact Hres.
Defined.

Lemma executeTask_staged_witness :
  collectFileListRecursively sampleEnv
  = Some ["mods/sodium.jar"; "mods/phosphor.jar"; "mods/custom.jar"; "options.txt"]
  /\ is_Some (pendingHashes (executeTask sampleEnv sampleTask).1 !! "mods/custom.jar")
  /\ pendingHashes (executeTask sampleEnv sampleTask).1 !! "options.txt" = None.
Proof.
  split; [reflexivity |].
  destruct (executeTask_staged sampleEnv sampleTask _ eq_refl) as (Hiff & _ & _).
  split.
  - apply Hiff. split; [| split; vm_compute; reflexivity].
    apply list_elem_of_further, list_elem_of_further, list_elem_of_here.
  - apply eq_None_not_Some. intros Hs. apply Hiff in Hs as (_ & _ & Hsens).
    vm_compute in Hsens. discriminate.
Defined.

Lemma executeTask_fresh_witness :
  collectFileListRecursively sampleEnv
  = Some ["mods/sodium.jar"; "mods/phosphor.jar"; "mods/custom.jar"; "options.txt"]
  /\ executeTask sampleEnv
       (withTask (setAbortable false
                    (withMaps (withFiles sampleTask ["stale.txt"])
                       {[ "stale.txt" := "00" ]}
                       {[ "mods/sodium.jar.disabled" := clientOnlyFile ]}))
          None)
     = executeTask sampleEnv sampleTask.
Proof.
  split; [reflexivity |].
  exact (executeTask_fresh sampleEnv sampleTask _ ["stale.txt"] {[ "stale.txt" := "00" ]}
           {[ "mods/sodium.jar.disabled" := clientOnlyFile ]} false None eq_refl).
Defined.

End ExportMoreFacts.
